(** * Counter and GitHubRepoStats: a shallow embedding of the two components

    The development follows [src/components/Counter.jsx] and
    [src/components/GitHubRepoStats.jsx].  JavaScript values, the exceptions
    of the language and the browser interfaces the components call
    ([localStorage], [JSON], [fetch], [Promise.all], [Intl.NumberFormat],
    [Date]) are modelled first; the functions of the source come next, under
    their own names; the theorems are at the end. *)

From Stdlib Require Import ZArith Ascii DecimalString.
From stdpp Require Import gmap strings list.

(** ** JavaScript values *)

Module JS.

(** Numbers are the integer-valued doubles, on which the arithmetic used
    here (one subtraction, one addition, comparison) is exact below 2^53;
    [VNaN] is the result of a failed numeric coercion.  Fractions and
    infinities do not occur among epoch-millisecond time stamps, HTTP status
    codes and click counts and are not represented.  [VArr] and [VObj] are
    arrays and plain objects as [JSON.parse] and object literals make them:
    their own properties are the elements and the fields, everything else is
    inherited.  [VFun] is an opaque built-in function object, as found on
    the prototypes of strings and arrays. *)
#[warnings="-register-all"]
Inductive value : Type :=
| VUndefined
| VNull
| VBool (b : bool)
| VNaN
| VNum (n : Z)
| VStr (s : string)
| VArr (xs : list value)
| VObj (fields : list (string * value))
| VFun (name : string).

(** Thrown values.  Everything thrown in these components is an [Error]
    object: it has a [name] and a [message]. *)
Record JSError := { e_name : string; e_message : string }.

Definition Error (msg : string) : JSError :=
  {| e_name := "Error"; e_message := msg |}.
Definition TypeError (msg : string) : JSError :=
  {| e_name := "TypeError"; e_message := msg |}.
Definition SyntaxError (msg : string) : JSError :=
  {| e_name := "SyntaxError"; e_message := msg |}.

(** A computation that returns or throws. *)
Inductive result (A : Type) : Type :=
| Ok (a : A)
| Throw (e : JSError).
Arguments Ok {A} a.
Arguments Throw {A} e.

#[global] Instance result_ret : MRet result := @Ok.
#[global] Instance result_bind : MBind result := λ A B f m,
  match m with Ok a => f a | Throw e => Throw e end.

(** [try { body } catch (e) { handler }] *)
Definition try_catch {A} (body : result A) (handler : JSError → result A) : result A :=
  match body with Ok a => Ok a | Throw e => handler e end.

(** A promise is pending ([None]) or settled, fulfilled ([Ok]) or rejected
    ([Throw]). *)
Abbreviation Promise A := (option (result A)).

(** [!!v] *)
Definition truthy (v : value) : bool :=
  match v with
  | VUndefined | VNull | VNaN => false
  | VBool b => b
  | VNum n => negb (n =? 0)%Z
  | VStr s => negb (String.eqb s "")
  | VArr _ | VObj _ | VFun _ => true
  end.

(** [Array.prototype.join]: [null] and [undefined] elements print as the
    empty string. *)
Definition join_with (sep : string) (parts : list string) : string :=
  String.concat sep parts.

(** The decimal digits of an integer, with a minus sign when negative. *)
Definition decimal (n : Z) : string := NilZero.string_of_int (Z.to_int n).

(** [Number.isSafeInteger]: between [-(2^53 - 1)] and [2^53 - 1]. *)
Definition safe_integer (n : Z) : bool := (Z.abs n <=? 2 ^ 53 - 1)%Z.

(** The primitive values: what [ToPrimitive] ends in. *)
Inductive prim : Type :=
| PUndefined
| PNull
| PBool (b : bool)
| PNaN
| PNum (n : Z)
| PStr (s : string).

Definition as_prim (v : value) : option prim :=
  match v with
  | VUndefined => Some PUndefined
  | VNull => Some PNull
  | VBool b => Some (PBool b)
  | VNaN => Some PNaN
  | VNum n => Some (PNum n)
  | VStr s => Some (PStr s)
  | VArr _ | VObj _ | VFun _ => None
  end.

Definition primitive (v : value) : bool :=
  match as_prim v with Some _ => true | None => false end.

(** The preferred type of a conversion to a primitive: [String(v)] and
    template literals ask for a string; subtraction, string concatenation
    and the [Date] constructor go the way of a number. *)
Inductive hint : Type := hint_string | hint_number.

(** [Function.prototype.toString] on a built-in. *)
Definition native_source (name : string) : string :=
  "function " +:+ name +:+ "() { [native code] }".

(** [Error.prototype.toString] *)
Definition error_toString (e : JSError) : string :=
  if String.eqb (e_name e) "" then e_message e
  else if String.eqb (e_message e) "" then e_name e
  else e_name e +:+ ": " +:+ e_message e.

(** Own-property lookup in an object literal. *)
Fixpoint lookup_field (k : string) (fields : list (string * value)) : option value :=
  match fields with
  | [] => None
  | (k', v) :: rest => if String.eqb k k' then Some v else lookup_field k rest
  end.

(** What the language leaves to the engine and the browser.  Every field is
    a built-in the components call; none is code of the repository. *)
Record Runtime := {
  (** [JSON.parse]; throws a [SyntaxError] on malformed text *)
  JSON_parse : string → result value;
  (** [JSON.stringify]; it may throw, as on a value it cannot serialise *)
  JSON_stringify : value → result string;
  (** the [StringToNumber] coercion; [None] is [NaN] *)
  StringToNumber : string → option Z;
  (** property lookup on a receiver that is neither nullish nor a plain
      object: through the prototypes of strings, arrays, numbers, booleans
      and functions *)
  proto_get : value → string → value;
  (** the message of the [TypeError] for a property read on [null] or
      [undefined] *)
  nullish_message : value → string → string;
  (** [Intl.NumberFormat(undefined, { notation: "compact" })]: constructing
      the formatter may throw, and so may its [format] *)
  Intl_NumberFormat_compact : result (value → result string);
  (** [new Date(p).toLocaleDateString()] on a primitive [p]; it prints
      [Invalid Date] where [p] is no date *)
  toLocaleDateString : prim → string;
  (** [Number::toString] outside the safe integers, where the digits are
      those of the nearest double, in exponent form from [1e21] on *)
  Number_toString_unsafe : Z → string;
  (** a built-in function object, found as the [toString] or [valueOf] of a
      plain object, is called on that object with no argument: it returns,
      or throws the [TypeError] of a receiver it was not made for *)
  call_builtin : string → value → option value;
}.

Section WithRuntime.
Context (rt : Runtime).

(** [Number::toString]: the decimal digits of a safe integer. *)
Definition Number_toString (n : Z) : string :=
  if safe_integer n then decimal n else Number_toString_unsafe rt n.

(** [ToString] on a primitive. *)
Definition prim_ToString (p : prim) : string :=
  match p with
  | PUndefined => "undefined"
  | PNull => "null"
  | PBool b => if b then "true" else "false"
  | PNaN => "NaN"
  | PNum n => Number_toString n
  | PStr s => s
  end.

(** [ToNumber] on a primitive; [None] is [NaN]. *)
Definition prim_ToNumber (p : prim) : option Z :=
  match p with
  | PUndefined | PNaN => None
  | PNull => Some 0%Z
  | PBool b => Some (if b then 1 else 0)%Z
  | PNum n => Some n
  | PStr s => StringToNumber rt s
  end.

Definition not_primitive : JSError :=
  TypeError "Cannot convert object to primitive value".

(** One round of [OrdinaryToPrimitive] on the plain object [this]: the
    method [name] is its own field of that name, or else the one of
    [Object.prototype].  A field that is not callable is passed over; the
    inherited [toString] answers [[object Object]] and the inherited
    [valueOf] returns the object itself, which is no primitive.  [None]:
    go on to the next method. *)
Definition ordinary_method (this : value) (fields : list (string * value))
    (name : string) : result (option prim) :=
  match lookup_field name fields with
  | Some (VFun f) =>
      match call_builtin rt f this with
      | Some r => Ok (as_prim r)
      | None => Throw (TypeError (native_source f +:+ " called on incompatible receiver"))
      end
  | Some _ => Ok None
  | None => Ok (if String.eqb name "toString" then Some (PStr "[object Object]") else None)
  end.

(** [OrdinaryToPrimitive]: [toString] then [valueOf] for a string,
    [valueOf] then [toString] for a number; a [TypeError] when neither
    gives a primitive. *)
Definition OrdinaryToPrimitive (h : hint) (this : value)
    (fields : list (string * value)) : result prim :=
  let '(first, second) :=
    match h with
    | hint_string => ("toString", "valueOf")
    | hint_number => ("valueOf", "toString")
    end in
  r1 ← ordinary_method this fields first;
  match r1 with
  | Some p => Ok p
  | None =>
      r2 ← ordinary_method this fields second;
      match r2 with
      | Some p => Ok p
      | None => Throw not_primitive
      end
  end.

(** [ToPrimitive].  An array inherits [valueOf], which returns the array,
    and [toString], which is [join]: the elements are converted to strings
    in turn, [null] and [undefined] to the empty one.  A function prints its
    source. *)
Fixpoint ToPrimitive (h : hint) (v : value) : result prim :=
  match v with
  | VUndefined => Ok PUndefined
  | VNull => Ok PNull
  | VBool b => Ok (PBool b)
  | VNaN => Ok PNaN
  | VNum n => Ok (PNum n)
  | VStr s => Ok (PStr s)
  | VArr xs =>
      parts ← mapM (λ x, match x with
                         | VUndefined | VNull => Ok ""
                         | _ => p ← ToPrimitive hint_string x; Ok (prim_ToString p)
                         end) xs;
      Ok (PStr (join_with "," parts))
  | VObj fields => OrdinaryToPrimitive h v fields
  | VFun name => Ok (PStr (native_source name))
  end.

(** [String(v)] and the [ToString] of template literals. *)
Definition ToString (v : value) : result string :=
  p ← ToPrimitive hint_string v; Ok (prim_ToString p).

(** [ToNumber]; [None] is [NaN]. *)
Definition ToNumber (v : value) : result (option Z) :=
  p ← ToPrimitive hint_number v; Ok (prim_ToNumber p).

(** ['' + v], the coercion of React for keys and attributes. *)
Definition concat_string (v : value) : result string :=
  p ← ToPrimitive hint_number v; Ok (prim_ToString p).

(** [a - b]: the left operand is converted first. *)
Definition js_sub (a b : value) : result (option Z) :=
  x ← ToNumber a; y ← ToNumber b;
  Ok (match x, y with Some x, Some y => Some (x - y)%Z | _, _ => None end).

(** [x > y] on numbers: false as soon as one side is [NaN]. *)
Definition num_gt (x y : option Z) : bool :=
  match x, y with
  | Some a, Some b => (b <? a)%Z
  | _, _ => false
  end.

(** [v.k], and one property of a destructuring pattern.  None of the
    property names this program reads is defined on [Object.prototype], so a
    plain object answers from its own fields alone. *)
Definition GetV (v : value) (k : string) : result value :=
  match v with
  | VUndefined | VNull => Throw (TypeError (nullish_message rt v k))
  | VObj fields => Ok (default VUndefined (lookup_field k fields))
  | _ => Ok (proto_get rt v k)
  end.

End WithRuntime.

End JS.

(** ** The browser's key-value store *)

Module LocalStorage.
Import JS.

(** [localStorage]: the stored strings, whether the page may touch the store
    at all (it throws a [SecurityError] otherwise) and which writes the
    quota lets through. *)
Record Storage := {
  entries : gmap string string;
  accessible : bool;
  accepts : string → string → bool;
}.

(** Code that reads and writes the store and may throw: the store is
    threaded through, and survives a throw. *)
Definition Eff (A : Type) : Type := Storage → Storage * result A.

#[global] Instance Eff_ret : MRet Eff := λ A a st, (st, Ok a).
#[global] Instance Eff_bind : MBind Eff := λ A B f m st,
  match m st with
  | (st', Ok a) => f a st'
  | (st', Throw e) => (st', Throw e)
  end.

Definition lift {A} (r : result A) : Eff A := λ st, (st, r).

(** [try { body } catch { handler }] around store accesses. *)
Definition try_catch_eff {A} (body : Eff A) (handler : JSError → Eff A) : Eff A :=
  λ st, match body st with
        | (st', Ok a) => (st', Ok a)
        | (st', Throw e) => handler e st'
        end.

Definition SecurityError : JSError :=
  {| e_name := "SecurityError"; e_message := "The operation is insecure." |}.
Definition QuotaExceededError : JSError :=
  {| e_name := "QuotaExceededError"; e_message := "The quota has been exceeded." |}.

(** [localStorage.getItem(key)]: the stored string, or [null]. *)
Definition getItem (key : string) : Eff value := λ st,
  if accessible st
  then (st, Ok (match entries st !! key with Some s => VStr s | None => VNull end))
  else (st, Throw SecurityError).

(** [localStorage.setItem(key, v)] *)
Definition setItem (key v : string) : Eff unit := λ st,
  if accessible st then
    if accepts st key v
    then ({| entries := <[key := v]> (entries st);
             accessible := accessible st; accepts := accepts st |}, Ok tt)
    else (st, Throw QuotaExceededError)
  else (st, Throw SecurityError).

End LocalStorage.

(** ** What React does with the values handed to it *)

Module React.
Import JS.

Section WithRuntime.
Context (rt : Runtime).

(** [key={v}]: [jsx] turns a key other than [undefined] into a string, with
    ['' + v], as it builds the element. *)
Definition element_key (v : value) : result (option string) :=
  match v with
  | VUndefined => Ok None
  | _ => s ← concat_string rt v; Ok (Some s)
  end.

(** A value among the children of an element, as the reconciler takes it:
    strings and numbers are text; [null], [undefined], booleans and
    functions leave nothing; an array is gone through element by element; a
    plain object is refused. *)
Fixpoint child (v : value) : result unit :=
  match v with
  | VObj _ => Throw (Error "Objects are not valid as a React child")
  | VArr xs => _ ← mapM child xs; Ok tt
  | _ => Ok tt
  end.

(** A value given for a string attribute of a DOM element, [href] here:
    [null], [undefined], booleans and functions leave the attribute out,
    any other value is written as ['' + v]. *)
Definition attribute (v : value) : result (option string) :=
  match v with
  | VUndefined | VNull | VBool _ | VFun _ => Ok None
  | _ => s ← concat_string rt v; Ok (Some s)
  end.

End WithRuntime.

End React.

(** ** GitHubRepoStats.jsx *)

Module GitHubRepoStats.
Import JS LocalStorage.

(** [const CACHE_TTL_MS = 10 * 60 * 1000; // 10 minutes] *)
Definition CACHE_TTL_MS : Z := 10 * 60 * 1000.

Section WithRuntime.
Context (rt : Runtime).

(** [readCache(key)], with [now] the value of [Date.now()]. *)
Definition readCache (now : Z) (key : string) : Eff value :=
  try_catch_eff
    (raw ← getItem key;
     if negb (truthy raw) then mret VNull else
     text ← lift (ToString rt raw);
     parsed ← lift (JSON_parse rt text);
     stamp ← lift (GetV rt parsed "at");
     data ← lift (GetV rt parsed "data");
     if negb (truthy stamp) then mret VNull else
     age ← lift (js_sub rt (VNum now) stamp);
     if num_gt age (Some CACHE_TTL_MS) then mret VNull else mret data)
    (λ _, mret VNull).

(** [writeCache(key, data)], with [now] the value of [Date.now()]. *)
Definition writeCache (now : Z) (key : string) (data : value) : Eff unit :=
  try_catch_eff
    (text ← lift (JSON_stringify rt (VObj [("at", VNum now); ("data", data)]));
     setItem key text)
    (λ _, mret tt).

(** What the network does with one request: [fetch] rejects (no response at
    all), or resolves to a response with its [ok] flag, its [status] and
    what [res.json()] settles to. *)
Record Response := {
  res_ok : bool;
  res_status : Z;
  res_json : result value;
}.
Definition FetchOutcome : Type := result Response.

(** [fetchRepo(userRepo)], given what the network does with its request;
    [Ok] is a fulfilled promise and [Throw] a rejected one. *)
Definition fetchRepo (userRepo : string) (net : FetchOutcome) : result value :=
  res ← net;
  if negb (res_ok res)
  then Throw (Error (userRepo +:+ " " +:+ Number_toString rt (res_status res)))
  else res_json res.

(** [compact(n)]: the [String(n)] of the handler is outside the [try]. *)
Definition compact (n : value) : result string :=
  try_catch (format ← Intl_NumberFormat_compact rt; format n)
            (λ _, ToString rt n).

(** [`gh:repos:${repos.join(",")}`] *)
Definition cacheKey (repos : list string) : string :=
  "gh:repos:" +:+ join_with "," repos.

(** The [then] callback of one request: the summary object built from the
    response body [j] of identifier [r]. *)
Definition repoSummary (r : string) (j : value) : result value :=
  name ← GetV rt j "name";
  full_name ← GetV rt j "full_name";
  html_url ← GetV rt j "html_url";
  description ← GetV rt j "description";
  stargazers_count ← GetV rt j "stargazers_count";
  forks_count ← GetV rt j "forks_count";
  open_issues_count ← GetV rt j "open_issues_count";
  pushed_at ← GetV rt j "pushed_at";
  language ← GetV rt j "language";
  Ok (VObj [("id", VStr r); ("name", name); ("full_name", full_name);
            ("html_url", html_url); ("description", description);
            ("stargazers_count", stargazers_count);
            ("forks_count", forks_count);
            ("open_issues_count", open_issues_count);
            ("pushed_at", pushed_at); ("language", language)]).

(** [fetchRepo(r).then((j) => ({ id: r, ... }))] *)
Definition repoPromise (r : string) (net : FetchOutcome) : result value :=
  j ← fetchRepo r net; repoSummary r j.

(** *** What the component returns *)

(** One fallback badge of the error view: the link and its image. *)
Record Badge := {
  badge_key : string;
  badge_href : string;
  badge_alt : string;
  badge_src : string;
}.

Definition badge (r : string) : Badge :=
  {| badge_key := r;
     badge_href := "https://github.com/" +:+ r;
     badge_alt := r +:+ " stars";
     badge_src := "https://img.shields.io/github/stars/" +:+ r +:+ "?style=flat" |}.

(** One card of the grid: the key of the link as [jsx] keeps it, the values
    given as its [href] and as the children showing the name, the language
    and the description, and the four strings the function computes itself.
    The language tag and the description are there only when truthy. *)
Record Card := {
  card_key : option string;
  card_href : value;
  card_name : value;
  card_language : option value;
  card_description : option value;
  card_stars : string;
  card_forks : string;
  card_issues : string;
  card_updated : string;
}.

Definition when_truthy (v : value) : option value :=
  if truthy v then Some v else None.

(** The body of [items?.map((it) => ...)].  The link is built by
    [jsx("a", { href, ..., children }, it.full_name)]: the attributes and
    the children are evaluated in the order of the source text, the key
    after them.  [new Date(v)] converts [v] to a primitive first. *)
Definition card (it : value) : result Card :=
  html_url ← GetV rt it "html_url";
  name ← GetV rt it "name";
  language ← GetV rt it "language";
  description ← GetV rt it "description";
  stars ← GetV rt it "stargazers_count" ≫= compact;
  forks ← GetV rt it "forks_count" ≫= compact;
  issues ← GetV rt it "open_issues_count" ≫= compact;
  pushed_at ← GetV rt it "pushed_at";
  date ← ToPrimitive rt hint_number pushed_at;
  full_name ← GetV rt it "full_name";
  key ← React.element_key rt full_name;
  Ok {| card_key := key;
        card_href := html_url;
        card_name := name;
        card_language := when_truthy language;
        card_description := when_truthy description;
        card_stars := stars;
        card_forks := forks;
        card_issues := issues;
        card_updated := toLocaleDateString rt date |}.

(** The three views: the loading placeholder, the error message with one
    badge per identifier, and the grid, whose children are [undefined] when
    [items] is nullish. *)
Inductive View : Type :=
| LoadingView
| ErrorView (message : value) (badges : list Badge)
| GridView (cards : option (list Card)).

(** [FetchStatus]: ["loading"], ["ready"], ["error"]. *)
Inductive FetchStatus : Type := st_loading | st_ready | st_error.

(** *** One fetch cycle: the effect's closure *)

(** A promise settles once: later settlements are ignored. *)
Definition settle {A} (p : Promise A) (r : result A) : Promise A :=
  match p with None => Some r | Some _ => p end.

(** The effect's closure: the [repos] and [cacheKey] it captured, its
    [cancelled] flag, the per-identifier promises, the [values] array and
    the remaining count of [Promise.all], the promise [Promise.all] returned,
    and whether the body has continued past its [await]. *)
Record Cycle := {
  c_repos : list string;
  c_cacheKey : string;
  cancelled : bool;
  promises : list (Promise value);
  all_values : list value;
  all_remaining : nat;
  all_promise : Promise (list value);
  resumed : bool;
}.

(** The effect runs: one request per identifier is issued and
    [Promise.all] is handed the promises; an empty list fulfils at once. *)
Definition start_cycle (repos : list string) (key : string) : Cycle :=
  let n := length repos in
  {| c_repos := repos;
     c_cacheKey := key;
     cancelled := false;
     promises := replicate n None;
     all_values := replicate n VUndefined;
     all_remaining := n;
     all_promise := if (n =? 0)%nat then Some (Ok []) else None;
     resumed := false |}.

(** Promise [i] of the cycle settles to [r]: [Promise.all] stores a
    fulfilled value in its slot and fulfils with the whole array when the
    count reaches zero; it rejects with the reason of a rejected one. *)
Definition promise_settled (i : nat) (r : result value) (c : Cycle) : Cycle :=
  match r with
  | Ok x =>
      let vs := <[i := x]> (all_values c) in
      let k := (all_remaining c - 1)%nat in
      {| c_repos := c_repos c; c_cacheKey := c_cacheKey c;
         cancelled := cancelled c;
         promises := <[i := Some r]> (promises c);
         all_values := vs;
         all_remaining := k;
         all_promise := if (k =? 0)%nat then settle (all_promise c) (Ok vs)
                        else all_promise c;
         resumed := resumed c |}
  | Throw e =>
      {| c_repos := c_repos c; c_cacheKey := c_cacheKey c;
         cancelled := cancelled c;
         promises := <[i := Some r]> (promises c);
         all_values := all_values c;
         all_remaining := all_remaining c;
         all_promise := settle (all_promise c) (Throw e);
         resumed := resumed c |}
  end.

(** The network answers request [i] of the cycle with [net]; a request is
    answered once. *)
Definition arrive (i : nat) (net : FetchOutcome) (c : Cycle) : Cycle :=
  match c_repos c !! i, promises c !! i with
  | Some r, Some None => promise_settled i (repoPromise r net) c
  | _, _ => c
  end.

(** [return () => { cancelled = true; }] *)
Definition cleanup (c : Cycle) : Cycle :=
  {| c_repos := c_repos c; c_cacheKey := c_cacheKey c;
     cancelled := true;
     promises := promises c; all_values := all_values c;
     all_remaining := all_remaining c; all_promise := all_promise c;
     resumed := resumed c |}.

Definition mark_resumed (c : Cycle) : Cycle :=
  {| c_repos := c_repos c; c_cacheKey := c_cacheKey c;
     cancelled := cancelled c;
     promises := promises c; all_values := all_values c;
     all_remaining := all_remaining c; all_promise := all_promise c;
     resumed := true |}.

(** *** The mounted component and the store it shares *)

(** The props, the three state variables, whether the component is still
    mounted, every cycle its effect has started (the last one belongs to the
    latest run of the effect), and [localStorage]. *)
Record World := {
  repos : list string;
  items : value;
  status : FetchStatus;
  error : value;
  mounted : bool;
  cycles : list Cycle;
  localStorage : Storage;
}.

(** The [return] statements of the component. *)
Definition render (w : World) : result View :=
  match status w with
  | st_loading => Ok LoadingView
  | st_error => Ok (ErrorView (error w) (map badge (repos w)))
  | st_ready =>
      match items w with
      | VUndefined | VNull => Ok (GridView None)
      | VArr its => cards ← mapM card its; Ok (GridView (Some cards))
      | _ => Throw (TypeError "items?.map is not a function")
      end
  end.

(** The hooks of the first call: [useMemo] and the three [useState]
    initialisers. *)
Definition first_render (now : Z) (props : list string) (store : Storage) : result World :=
  let key := cacheKey props in
  match readCache now key store with
  | (store', Ok cached) =>
      Ok {| repos := props;
            items := cached;
            status := if truthy cached then st_ready else st_loading;
            error := VNull;
            mounted := false;
            cycles := [];
            localStorage := store' |}
  | (_, Throw e) => Throw e
  end.

(** The effect runs for the key [key] of the current render. *)
Definition useEffect_run (key : string) (w : World) : World :=
  {| repos := repos w; items := items w; status := status w; error := error w;
     mounted := true;
     cycles := cycles w ++ [start_cycle (repos w) key];
     localStorage := localStorage w |}.

(** What React makes of one card: the children of the inner elements are
    taken in first, the [href] is written when the link itself is built. *)
Definition reconcile_card (c : Card) : result unit :=
  _ ← React.child (card_name c);
  _ ← from_option React.child (Ok tt) (card_language c);
  _ ← from_option React.child (Ok tt) (card_description c);
  _ ← React.attribute rt (card_href c);
  Ok tt.

(** What React makes of the returned view, before anything is committed.
    The message of the error view is a child; everything else in the
    loading and error views is a string of the source. *)
Definition reconcile (v : View) : result unit :=
  match v with
  | LoadingView => Ok tt
  | ErrorView message _ => React.child message
  | GridView None => Ok tt
  | GridView (Some cards) => _ ← mapM reconcile_card cards; Ok tt
  end.

(** Mounting: the first call of the component must return, and React must
    accept what it returned, for the tree to be committed and the effect to
    run. *)
Definition mount (now : Z) (props : list string) (store : Storage) : result World :=
  w ← first_render now props store;
  v ← render w;
  _ ← reconcile v;
  Ok (useEffect_run (cacheKey props) w).

Definition with_cycles (cs : list Cycle) (w : World) : World :=
  {| repos := repos w; items := items w; status := status w; error := error w;
     mounted := mounted w; cycles := cs; localStorage := localStorage w |}.

(** The cleanup of the latest effect run. *)
Definition run_cleanup (w : World) : World :=
  with_cycles (alter cleanup (length (cycles w) - 1) (cycles w)) w.

(** [String(e?.message || e)] *)
Definition error_text (e : JSError) : string :=
  if truthy (VStr (e_message e)) then e_message e else error_toString e.

(** The body of the async function after its [await], for a cycle whose
    [Promise.all] settled to [outcome]. *)
Definition continuation (now : Z) (c : Cycle) (outcome : result (list value)) (w : World) : World :=
  match outcome with
  | Ok results =>
      if negb (cancelled c) then
        let '(store', _) := writeCache now (c_cacheKey c) (VArr results) (localStorage w) in
        {| repos := repos w; items := VArr results; status := st_ready;
           error := error w; mounted := mounted w; cycles := cycles w;
           localStorage := store' |}
      else w
  | Throw e =>
      if negb (cancelled c) then
        {| repos := repos w; items := items w; status := st_error;
           error := VStr (error_text e); mounted := mounted w;
           cycles := cycles w; localStorage := localStorage w |}
      else w
  end.

(** What can happen to a mounted component.  [step] follows the props, the
    state variables, the closures of the effect and the store.  The call of
    the component after an update is [render] on the new world: where it
    throws, or React refuses what it returned, the tree is torn down, and
    what is said below of a view that is shown says that [render]
    returned. *)
Inductive Event : Type :=
| Arrive (c i : nat) (net : FetchOutcome)
| Resume (c : nat) (now : Z)
| Rerender (props : list string)
| Unmount.

Definition step (ev : Event) (w : World) : World :=
  match ev with
  | Arrive c i net => with_cycles (alter (arrive i net) c (cycles w)) w
  | Resume c now =>
      match cycles w !! c with
      | Some cyc =>
          if resumed cyc then w else
          match all_promise cyc with
          | None => w
          | Some outcome =>
              continuation now cyc outcome
                (with_cycles (alter mark_resumed c (cycles w)) w)
          end
      | None => w
      end
  | Rerender props =>
      if mounted w then
        let w1 := {| repos := props; items := items w; status := status w;
                     error := error w; mounted := true; cycles := cycles w;
                     localStorage := localStorage w |} in
        match last (cycles w) with
        | Some cyc =>
            if String.eqb (c_cacheKey cyc) (cacheKey props) then w1
            else useEffect_run (cacheKey props) (run_cleanup w1)
        | None => w1
        end
      else w
  | Unmount =>
      if mounted w then
        let w1 := run_cleanup w in
        {| repos := repos w1; items := items w1; status := status w1;
           error := error w1; mounted := false; cycles := cycles w1;
           localStorage := localStorage w1 |}
      else w
  end.

Definition run (evs : list Event) (w : World) : World :=
  foldl (λ w ev, step ev w) w evs.

(** The answers of the network to cycle [c], one per identifier, arriving
    in the order [sched]. *)
Definition arrivals (c : nat) (nets : list FetchOutcome) (sched : list nat) : list Event :=
  omap (λ i, Arrive c i <$> nets !! i) sched.

End WithRuntime.

End GitHubRepoStats.

(** ** Counter.jsx *)

Module Counter.
Import JS.

(** [const [n, setN] = useState(0)] *)
Definition initial : Z := 0.

(** [onClick={() => setN(n + 1)}] *)
Definition onClick (n : Z) : Z := n + 1.

(** The button's text: [Count: {n}]. *)
Definition render (n : Z) : string := "Count: " +:+ decimal n.

(** A mounted counter is activated, or torn down and mounted again. *)
Inductive Event : Type := Click | Remount.

Definition step (n : Z) (ev : Event) : Z :=
  match ev with
  | Click => onClick n
  | Remount => initial
  end.

Definition run (evs : list Event) (n : Z) : Z := foldl step n evs.

End Counter.

(** ** A small engine for ground examples *)

Module Demo.
Import JS LocalStorage GitHubRepoStats.

Definition quote : string := String (Ascii.ascii_of_nat 34) EmptyString.

(** [JSON.stringify] on plain data; strings are printed without escapes and
    properties whose value is [undefined] are left out. *)
Fixpoint stringify (v : value) : string :=
  match v with
  | VUndefined | VNull | VNaN | VFun _ => "null"
  | VBool b => if b then "true" else "false"
  | VNum n => NilZero.string_of_int (Z.to_int n)
  | VStr s => quote +:+ s +:+ quote
  | VArr xs => "[" +:+ join_with "," (map stringify xs) +:+ "]"
  | VObj fields =>
      "{" +:+ join_with ","
        (flat_map (λ '(k, x), match x with
                              | VUndefined | VFun _ => []
                              | _ => [quote +:+ k +:+ quote +:+ ":" +:+ stringify x]
                              end) fields) +:+ "}"
  end.

(** A response body of the repository API. *)
Definition body (name full_name : string) (stars : Z) : value :=
  VObj [("name", VStr name); ("full_name", VStr full_name);
        ("html_url", VStr ("https://github.com/" +:+ full_name));
        ("description", VNull);
        ("stargazers_count", VNum stars); ("forks_count", VNum 56);
        ("open_issues_count", VNum 3);
        ("pushed_at", VStr "2024-01-01T00:00:00Z"); ("language", VStr "Go")].

(** The documents [parse] knows: it inverts [stringify] on them and rejects
    every other text.  The last one is an entry stamped [0]. *)
Definition documents : list value :=
  [ VObj [("at", VNum 1700000000000); ("data", VArr [])];
    VObj [("at", VNum 1700000000000); ("data", VArr [body "bar" "foo/bar" 1234])];
    VObj [("data", VArr [])];
    VObj [("at", VNum 0); ("data", VArr [body "bar" "foo/bar" 1234])] ].

Definition parse (s : string) : result value :=
  match find (λ v, String.eqb (stringify v) s) documents with
  | Some v => Ok v
  | None => Throw (SyntaxError "Unexpected token")
  end.

(** An engine with decimal integers as its only numeric strings, the [at]
    method on strings and arrays, no [Intl], dates printed as they were
    given, and built-ins that refuse a plain object as their receiver.  The
    numbers of the examples are safe integers. *)
Definition runtime : Runtime :=
  {| JSON_parse := parse;
     JSON_stringify := λ v, Ok (stringify v);
     StringToNumber := λ s,
       if String.eqb s "" then Some 0%Z else Z.of_int <$> NilZero.int_of_string s;
     proto_get := λ v k,
       match v with
       | VStr _ | VArr _ => if String.eqb k "at" then VFun "at" else VUndefined
       | _ => VUndefined
       end;
     nullish_message := λ v k,
       "Cannot read properties of "
       +:+ match v with VNull => "null" | _ => "undefined" end
       +:+ " (reading '" +:+ k +:+ "')";
     Intl_NumberFormat_compact :=
       Throw {| e_name := "ReferenceError"; e_message := "Intl is not defined" |};
     toLocaleDateString := λ p,
       match p with PStr s => s | PNum n => decimal n | _ => "Invalid Date" end;
     Number_toString_unsafe := decimal;
     call_builtin := λ _ _, None |}.

Definition store (content : list (string * string)) : Storage :=
  {| entries := list_to_map content; accessible := true; accepts := λ _ _, true |}.

Definition locked_store : Storage :=
  {| entries := ∅; accessible := false; accepts := λ _ _, true |}.

(** A success response with body [j], and a response with a failure status. *)
Definition ok_response (j : value) : FetchOutcome :=
  Ok {| res_ok := true; res_status := 200; res_json := Ok j |}.
Definition status_response (code : Z) : FetchOutcome :=
  Ok {| res_ok := false; res_status := code;
        res_json := Throw (SyntaxError "Unexpected end of JSON input") |}.

(** The world of a mount that succeeded. *)
Definition mounted_world (r : result World) : World :=
  match r with
  | Ok w => w
  | Throw _ =>
      {| repos := []; items := VNull; status := st_loading; error := VNull;
         mounted := false; cycles := []; localStorage := locked_store |}
  end.

(** The batch [a/b], [c/d] mounted over an empty store. *)
Definition two_repos : list string := ["a/b"; "c/d"].
Definition two_mounted : World :=
  mounted_world (mount runtime 1700000000000 two_repos (store [])).
Definition both_ok : list FetchOutcome :=
  [ok_response (body "b" "a/b" 1); ok_response (body "d" "c/d" 2)].
Definition second_404 : list FetchOutcome :=
  [ok_response (body "b" "a/b" 1); status_response 404].

End Demo.

(** ** The specification's vocabulary *)

Module Spec.
Import JS LocalStorage GitHubRepoStats.

(** What the store holds under a key, as the data model reads it: nothing,
    a text that is not JSON, or a cache entry with its time stamp and its
    list of summaries. *)
Inductive CacheSlot : Type :=
| Absent
| Unparsable
| Entry (timestamp : Z) (data : list value).

Inductive holds (rt : Runtime) (st : Storage) (key : string) : CacheSlot → Prop :=
| holds_absent :
    accessible st = true → entries st !! key = None →
    holds rt st key Absent
| holds_unparsable raw e :
    accessible st = true → entries st !! key = Some raw →
    JSON_parse rt raw = Throw e →
    holds rt st key Unparsable
| holds_entry raw fields t d :
    accessible st = true → entries st !! key = Some raw → raw ≠ "" →
    JSON_parse rt raw = Ok (VObj fields) →
    lookup_field "at" fields = Some (VNum t) →
    lookup_field "data" fields = Some (VArr d) →
    holds rt st key (Entry t d).

(** The data of an entry whose age is within the time-to-live; an older
    entry, like a missing one, counts as absent. *)
Definition within_ttl (now : Z) (slot : CacheSlot) : option (list value) :=
  match slot with
  | Entry t d => if (now - t <=? CACHE_TTL_MS)%Z then Some d else None
  | Absent | Unparsable => None
  end.

(** The data of an entry that carries a time stamp other than 0 and whose
    age is within the time-to-live. *)
Definition stamped_within_ttl (now : Z) (slot : CacheSlot) : option (list value) :=
  match slot with
  | Entry t d =>
      if negb (t =? 0)%Z && (now - t <=? CACHE_TTL_MS)%Z then Some d else None
  | Absent | Unparsable => None
  end.

Definition cached_value (hit : option (list value)) : value :=
  match hit with Some d => VArr d | None => VNull end.

(** A corrupt or inaccessible entry: the store cannot be read, the text is
    not JSON, or the parsed object has no time stamp.  A text that parses
    to something that is not an object is outside the data model: what
    [readCache] reads off it is up to the prototypes of the engine. *)
Inductive Corrupt (rt : Runtime) (st : Storage) (key : string) : Prop :=
| corrupt_unreadable :
    accessible st = false → Corrupt rt st key
| corrupt_unparsable raw e :
    accessible st = true → entries st !! key = Some raw →
    JSON_parse rt raw = Throw e →
    Corrupt rt st key
| corrupt_no_timestamp raw fields :
    accessible st = true → entries st !! key = Some raw →
    JSON_parse rt raw = Ok (VObj fields) →
    lookup_field "at" fields = None →
    Corrupt rt st key.

(** The cycle after the network answered the requests in the order
    [sched], request [i] with [nets !! i]. *)
Definition arrive_all (rt : Runtime) (nets : list FetchOutcome) (sched : list nat)
    (c : Cycle) : Cycle :=
  foldl (λ c i, match nets !! i with Some net => arrive rt i net c | None => c end)
        c sched.

(** The reason of the first promise to reject, in the order of arrival. *)
Fixpoint first_rejection (rt : Runtime) (props : list string)
    (nets : list FetchOutcome) (sched : list nat) : option JSError :=
  match sched with
  | [] => None
  | i :: rest =>
      match props !! i, nets !! i with
      | Some r, Some net =>
          match repoPromise rt r net with
          | Throw e => Some e
          | Ok _ => first_rejection rt props nets rest
          end
      | _, _ => first_rejection rt props nets rest
      end
  end.

(** The summaries of a batch, one per identifier, in the order of the
    identifiers. *)
Definition summaries (rt : Runtime) (props : list string)
    (nets : list FetchOutcome) : list value :=
  zip_with (λ r net, match repoPromise rt r net with
                     | Ok s => s
                     | Throw _ => VUndefined
                     end) props nets.

(** The fields of a response body that a summary carries. *)
Definition summary_fields : list string :=
  ["name"; "full_name"; "html_url"; "description"; "stargazers_count";
   "forks_count"; "open_issues_count"; "pushed_at"; "language"].

(** The field [k] of the body [j]; [undefined] where it has none. *)
Definition field_of (rt : Runtime) (j : value) (k : string) : value :=
  match GetV rt j k with Ok v => v | Throw _ => VUndefined end.

(** [RepoSummary], as the data model has it, for the identifier [r] and
    the response body [j]: the identifier, then the nine fields as the body
    gives them. *)
Definition RepoSummary (rt : Runtime) (r : string) (j : value) : value :=
  VObj [("id", VStr r);
        ("name", field_of rt j "name");
        ("full_name", field_of rt j "full_name");
        ("html_url", field_of rt j "html_url");
        ("description", field_of rt j "description");
        ("stargazers_count", field_of rt j "stargazers_count");
        ("forks_count", field_of rt j "forks_count");
        ("open_issues_count", field_of rt j "open_issues_count");
        ("pushed_at", field_of rt j "pushed_at");
        ("language", field_of rt j "language")].

(** A body that is an object, or anything else but [null] and [undefined],
    and whose nine fields are primitives: strings, numbers, booleans,
    [null], or missing.  The responses of the repository API are such. *)
Definition plain_body (rt : Runtime) (j : value) : Prop :=
  j ≠ VNull ∧ j ≠ VUndefined
  ∧ Forall (λ k, primitive (field_of rt j k) = true) summary_fields.

Definition fulfilled (p : Promise value) : bool :=
  match p with Some (Ok _) => true | _ => false end.

Definition rejected (p : Promise value) : bool :=
  match p with Some (Throw _) => true | _ => false end.

Fixpoint unfulfilled_count (ps : list (Promise value)) : nat :=
  match ps with
  | [] => 0
  | p :: rest => (if fulfilled p then 0 else 1) + unfulfilled_count rest
  end.

(** What [Promise.all] maintains between two arrivals. *)
Record cycle_inv (c : Cycle) : Prop := {
  inv_promises : length (promises c) = length (c_repos c);
  inv_values : length (all_values c) = length (c_repos c);
  inv_remaining : all_remaining c = unfulfilled_count (promises c);
  inv_slots : ∀ i x, promises c !! i = Some (Some (Ok x)) → all_values c !! i = Some x;
  inv_all : match all_promise c with
            | None => all_remaining c ≠ 0 ∧ Forall (λ p, rejected p = false) (promises c)
            | Some (Ok vs) => vs = all_values c ∧ all_remaining c = 0
            | Some (Throw _) => Exists (λ p, rejected p = true) (promises c)
            end;
}.

(** Every settled promise of the cycle settled to what the network
    answered its request. *)
Definition agrees (rt : Runtime) (nets : list FetchOutcome) (c : Cycle) : Prop :=
  ∀ i r, promises c !! i = Some (Some r) →
    ∃ p net, c_repos c !! i = Some p ∧ nets !! i = Some net ∧ r = repoPromise rt p net.

(** A repository identifier, [owner/name].  The cache key relies on two
    facts about that form and on nothing else: an identifier is not empty
    and holds no comma. *)
Fixpoint comma_free (s : string) : bool :=
  match s with
  | EmptyString => true
  | String a rest => negb (Ascii.eqb a ","%char) && comma_free rest
  end.

Definition identifier (s : string) : Prop := s ≠ "" ∧ comma_free s = true.

(** The worlds a mounted component can be in. *)
Inductive reachable (rt : Runtime) : World → Prop :=
| reach_mount now props st w :
    mount rt now props st = Ok w → reachable rt w
| reach_step ev w :
    reachable rt w → reachable rt (step rt ev w).

(** What every reachable world satisfies: each cycle keeps the invariant
    of [Promise.all]; every cycle but the one of the latest run of the
    effect has its flag set, and so have all once the component is
    unmounted; while it is mounted, the latest cycle was started for the key
    of the current identifiers. *)
Record world_inv (w : World) : Prop := {
  winv_cycles : Forall cycle_inv (cycles w);
  winv_stale : ∀ c cyc, cycles w !! c = Some cyc → S c < length (cycles w) →
               cancelled cyc = true;
  winv_unmounted : mounted w = false →
                   Forall (λ cyc, cancelled cyc = true) (cycles w);
  winv_key : mounted w = true →
             ∃ cyc, last (cycles w) = Some cyc
                    ∧ c_cacheKey cyc = cacheKey (repos w);
}.

(** The events that end the latest run of the effect: the component is
    torn down, or it is rendered with a list of identifiers that gives
    another cache key, as every other list of identifiers does. *)
Inductive tears_down (w : World) : Event → Prop :=
| tear_unmount : tears_down w Unmount
| tear_new_key props :
    cacheKey props ≠ cacheKey (repos w) → tears_down w (Rerender props)
| tear_new_list props :
    Forall identifier props → Forall identifier (repos w) → props ≠ repos w →
    tears_down w (Rerender props).

End Spec.

(** ** Vocabulary of the laws beyond the specification *)

Module Laws.
Import JS LocalStorage GitHubRepoStats.

(** What the user sees and what persists: the three state variables and
    the store. *)
Definition observable (w : World) : value * FetchStatus * value * Storage :=
  (items w, status w, error w, localStorage w).

(** The engine of the ground examples, reading three more documents: two
    entries whose data is not a list of summaries, and the entry of the two
    summaries of the batch [a/b], [c/d]. *)
Definition more_documents : list value :=
  Demo.documents
  ++ [ VObj [("at", VNum 1700000000000); ("data", VNum 5)];
       VObj [("at", VNum 1700000000000); ("data", VArr [VNull])];
       VObj [("at", VNum 1700000000500);
             ("data", VArr (Spec.summaries Demo.runtime Demo.two_repos Demo.both_ok))] ].

Definition parse_more (s : string) : result value :=
  match find (λ v, String.eqb (Demo.stringify v) s) more_documents with
  | Some v => Ok v
  | None => Throw (SyntaxError "Unexpected token")
  end.

Definition runtime_more : Runtime :=
  {| JSON_parse := parse_more;
     JSON_stringify := JSON_stringify Demo.runtime;
     StringToNumber := StringToNumber Demo.runtime;
     proto_get := proto_get Demo.runtime;
     nullish_message := nullish_message Demo.runtime;
     Intl_NumberFormat_compact := Intl_NumberFormat_compact Demo.runtime;
     toLocaleDateString := toLocaleDateString Demo.runtime;
     Number_toString_unsafe := Number_toString_unsafe Demo.runtime;
     call_builtin := call_builtin Demo.runtime |}.

End Laws.

(** * Theorems *)

Import JS LocalStorage GitHubRepoStats Spec.

(** ** Conversions *)

Section Conversions.
Context (rt : Runtime).

(** The conversions leave a primitive as it is. *)
Lemma ToPrimitive_primitive h v :
  primitive v = true → ∃ p, as_prim v = Some p ∧ ToPrimitive rt h v = Ok p.
Proof. destruct v; (done || by eexists). Qed.

Lemma ToString_primitive v : primitive v = true → ∃ s, ToString rt v = Ok s.
Proof.
  intros Hv. destruct (ToPrimitive_primitive hint_string v Hv) as (p & _ & Hp).
  unfold ToString. rewrite Hp. by eexists.
Qed.

Lemma GetV_throws v k e : GetV rt v k = Throw e → e_name e = "TypeError".
Proof. destruct v; simpl; try done; by intros [= <-]. Qed.

Lemma ordinary_method_throws this fields name e :
  ordinary_method rt this fields name = Throw e → e_name e = "TypeError".
Proof.
  unfold ordinary_method. destruct (lookup_field name fields) as [[]|]; try done.
  destruct (call_builtin rt _ this); [done|]. by intros [= <-].
Qed.

(** Induction on a value, through the elements of its arrays. *)
Lemma value_array_ind (P : value → Prop) :
  P VUndefined → P VNull → (∀ b, P (VBool b)) → P VNaN → (∀ n, P (VNum n)) →
  (∀ s, P (VStr s)) → (∀ xs, Forall P xs → P (VArr xs)) →
  (∀ fields, P (VObj fields)) → (∀ name, P (VFun name)) →
  ∀ v, P v.
Proof.
  intros Hundef Hnull Hbool Hnan Hnum Hstr Harr Hobj Hfun.
  fix IH 1. intros [| |b| |n|s|xs|fields|name];
    [apply Hundef|apply Hnull|apply Hbool|apply Hnan|apply Hnum|apply Hstr|
    |apply Hobj|apply Hfun].
  apply Harr. induction xs as [|x xs IHxs]; constructor; [apply IH|apply IHxs].
Qed.

(** A conversion to a primitive throws nothing but a [TypeError]. *)
Lemma ToPrimitive_throws v h e :
  ToPrimitive rt h v = Throw e → e_name e = "TypeError".
Proof.
  revert h e. induction v as [| |b| |n|s|xs IHxs|fields|name] using value_array_ind;
    intros h e; try done.
  - simpl. unfold mbind at 1, result_bind at 1.
    match goal with |- match ?m with _ => _ end = _ → _ =>
      destruct m as [parts|e'] eqn:Hparts end; [done|].
    intros [= ->]. clear h. revert e Hparts.
    induction IHxs as [|x xs Hx _ IH]; intros e; [done|].
    simpl. unfold mbind, result_bind, mret, result_ret.
    match goal with |- match ?m with _ => _ end = _ → _ =>
      destruct m as [part|e'] eqn:Hpart end.
    + match goal with |- match ?m with _ => _ end = _ → _ =>
        destruct m as [parts|e'] eqn:Hparts end; [done|].
      intros [= ->]. by apply IH.
    + intros [= ->]. destruct x; try done;
        (destruct (ToPrimitive rt hint_string _) as [p|e'] eqn:Hp in Hpart;
         [done|injection Hpart as ->; by apply (Hx _ _ Hp)]).
  - simpl. unfold OrdinaryToPrimitive.
    destruct h; unfold mbind, result_bind;
      (match goal with |- context [ordinary_method rt ?a ?b ?c] =>
         destruct (ordinary_method rt a b c) as [[?|]|?] eqn:H1 end;
       [done| |intros [= <-]; by eapply ordinary_method_throws]);
      (match goal with |- context [ordinary_method rt ?a ?b ?c] =>
         destruct (ordinary_method rt a b c) as [[?|]|?] eqn:H2 end;
       [done|by intros [= <-]|intros [= <-]; by eapply ordinary_method_throws]).
Qed.

Lemma ToString_throws v e : ToString rt v = Throw e → e_name e = "TypeError".
Proof.
  unfold ToString, mbind, result_bind.
  destruct (ToPrimitive rt hint_string v) eqn:Hp; [done|].
  intros [= <-]. by eapply ToPrimitive_throws.
Qed.

End Conversions.

(** ** The cache *)

Section Cache.
Context (rt : Runtime).

(** [readCache] in direct style: it always returns, and leaves the store as
    it found it. *)
Lemma readCache_eq now key st :
  readCache rt now key st =
  (st, Ok (if accessible st then
             match entries st !! key with
             | None => VNull
             | Some raw =>
                 if String.eqb raw "" then VNull else
                 match JSON_parse rt raw with
                 | Throw _ => VNull
                 | Ok parsed =>
                     match GetV rt parsed "at", GetV rt parsed "data" with
                     | Ok stamp, Ok data =>
                         if negb (truthy stamp) then VNull else
                         match js_sub rt (VNum now) stamp with
                         | Ok age =>
                             if num_gt age (Some CACHE_TTL_MS) then VNull else data
                         | Throw _ => VNull
                         end
                     | _, _ => VNull
                     end
                 end
             end
           else VNull)).
Proof.
  unfold readCache, try_catch_eff, mbind, Eff_bind, getItem, lift, mret, Eff_ret.
  destruct (accessible st); [|done].
  destruct (entries st !! key) as [raw|]; simpl; [|done].
  destruct (String.eqb raw ""); simpl; [done|].
  destruct (JSON_parse rt raw) as [parsed|]; [|done].
  destruct (GetV rt parsed "at") as [stamp|]; [|done].
  destruct (GetV rt parsed "data") as [data|]; [|done].
  destruct (negb (truthy stamp)); simpl; [done|].
  destruct (js_sub rt (VNum now) stamp) as [age|]; [|done].
  by destruct (num_gt age _).
Qed.

(** The guard [!at] takes a time stamp of 0 for a missing one: such an
    entry is read as absent at any time. *)
Lemma readCache_zero_stamp now key st raw fields :
  accessible st = true → entries st !! key = Some raw →
  JSON_parse rt raw = Ok (VObj fields) →
  lookup_field "at" fields = Some (VNum 0) →
  readCache rt now key st = (st, Ok VNull).
Proof.
  intros Hacc Hraw Hparse Hat. rewrite readCache_eq, Hacc, Hraw, Hparse.
  destruct (String.eqb raw ""); [done|]. simpl. rewrite Hat. simpl.
  by destruct (lookup_field "data" fields).
Qed.

(** [writeCache] always returns, and changes nothing when the store
    refuses the write. *)
Lemma writeCache_eq now key data st :
  writeCache rt now key data st =
  (match JSON_stringify rt (VObj [("at", VNum now); ("data", data)]) with
   | Ok text =>
       if accessible st && accepts st key text
       then {| entries := <[key := text]> (entries st);
               accessible := accessible st; accepts := accepts st |}
       else st
   | Throw _ => st
   end, Ok tt).
Proof.
  unfold writeCache, try_catch_eff, setItem, lift, mbind, Eff_bind, mret, Eff_ret.
  destruct (JSON_stringify rt _) as [text|]; [|done].
  destruct (accessible st); [|done]. simpl.
  by destruct (accepts st key text).
Qed.

End Cache.

(** C3, as the claim has it, fails on an entry stamped 0: it exists, it
    parses, and one second past the epoch its age is within the
    time-to-live, yet [readCache] returns [null], because the guard [!at]
    takes the stamp 0 for a missing one. *)
Lemma C3_entry_stamped_zero_is_not_served :
  let entry := [Demo.body "bar" "foo/bar" 1234] in
  let st := Demo.store
    [("gh:repos:foo/bar",
      Demo.stringify (VObj [("at", VNum 0); ("data", VArr entry)]))] in
  holds Demo.runtime st (cacheKey ["foo/bar"]) (Entry 0 entry)
  ∧ within_ttl 1000 (Entry 0 entry) = Some entry
  ∧ readCache Demo.runtime 1000 (cacheKey ["foo/bar"]) st = (st, Ok VNull)
  ∧ readCache Demo.runtime 1000 (cacheKey ["foo/bar"]) st
    ≠ (st, Ok (cached_value (within_ttl 1000 (Entry 0 entry)))).
Proof.
  cbv zeta. split; [|split; [|split]].
  - eapply holds_entry; [reflexivity | vm_compute; reflexivity | discriminate
                        | vm_compute; reflexivity | reflexivity | reflexivity].
  - reflexivity.
  - vm_compute. reflexivity.
  - vm_compute. discriminate.
Qed.

(** C3.  For every stored cache entry, [readCache] returns the data of the
    entry exactly when the entry exists, parses, carries a time stamp other
    than 0 and its age, [now] minus its time stamp, is within the ten
    minutes of [CACHE_TTL_MS]; an older entry, or one stamped 0, is treated
    as absent.  When [readCache] returns data the first render starts with
    that data and the status [ready]; otherwise it starts with the status
    [loading].  The stamp 0 is the only place where this differs from the
    age alone, and it no longer does once the clock is later than ten
    minutes past the epoch. *)
Theorem C3_readCache_within_ttl (rt : Runtime) (now : Z) (props : list string)
    (st : Storage) (slot : CacheSlot) :
  holds rt st (cacheKey props) slot →
  readCache rt now (cacheKey props) st
    = (st, Ok (cached_value (stamped_within_ttl now slot)))
  ∧ (∃ w, first_render rt now props st = Ok w
          ∧ items w = cached_value (stamped_within_ttl now slot)
          ∧ status w = match stamped_within_ttl now slot with
                       | Some _ => st_ready
                       | None => st_loading
                       end
          ∧ error w = VNull
          ∧ localStorage w = st)
  ∧ (∀ t d, slot = Entry t d →
       stamped_within_ttl now slot
       = if (t =? 0)%Z then None
         else if (now - t <=? CACHE_TTL_MS)%Z then Some d else None)
  ∧ ((∀ d, slot ≠ Entry 0 d) ∨ (CACHE_TTL_MS < now)%Z →
     stamped_within_ttl now slot = within_ttl now slot).
Proof.
  intros Hslot.
  assert (readCache rt now (cacheKey props) st
          = (st, Ok (cached_value (stamped_within_ttl now slot)))) as Hread.
  { rewrite readCache_eq.
    destruct Hslot as [Hacc Hnone | raw e Hacc Hraw Hparse
                      | raw fields t d Hacc Hraw Hne Hparse Hat Hdata].
    - by rewrite Hacc, Hnone.
    - rewrite Hacc, Hraw, Hparse. by destruct (String.eqb raw "").
    - rewrite Hacc, Hraw, Hparse.
      destruct (String.eqb_spec raw "") as [->|_]; [done|].
      simpl. rewrite Hat, Hdata. simpl.
      destruct (Z.eqb_spec t 0) as [->|Ht]; simpl; [done|].
      destruct (Z.ltb_spec CACHE_TTL_MS (now - t)),
               (Z.leb_spec (now - t) CACHE_TTL_MS); (done || lia). }
  split; [done|]. split; [|split].
  - unfold first_render. rewrite Hread.
    eexists. split; [done|]. simpl.
    by destruct (stamped_within_ttl now slot).
  - intros t d ->. simpl. by destruct (t =? 0)%Z.
  - intros Hcase. destruct slot as [| |t d]; [done|done|]. simpl.
    destruct (Z.eqb_spec t 0) as [->|Ht]; simpl; [|done].
    destruct Hcase as [Hno|Hclock]; [by destruct (Hno d)|].
    rewrite Z.sub_0_r. by destruct (Z.leb_spec now CACHE_TTL_MS); [lia|].
Qed.

Lemma C3_readCache_within_ttl_witness :
  let st := Demo.store
    [("gh:repos:foo/bar",
      Demo.stringify (VObj [("at", VNum 1700000000000);
                            ("data", VArr [Demo.body "bar" "foo/bar" 1234])]))] in
  readCache Demo.runtime 1700000300000 (cacheKey ["foo/bar"]) st
    = (st, Ok (VArr [Demo.body "bar" "foo/bar" 1234]))
  ∧ readCache Demo.runtime 1700000600001 (cacheKey ["foo/bar"]) st = (st, Ok VNull).
Proof.
  assert (holds Demo.runtime
            (Demo.store
               [("gh:repos:foo/bar",
                 Demo.stringify (VObj [("at", VNum 1700000000000);
                                       ("data", VArr [Demo.body "bar" "foo/bar" 1234])]))])
            (cacheKey ["foo/bar"])
            (Entry 1700000000000 [Demo.body "bar" "foo/bar" 1234])) as Hslot.
  { eapply holds_entry; [reflexivity | vm_compute; reflexivity | discriminate
                        | vm_compute; reflexivity | reflexivity | reflexivity]. }
  split.
  - exact (proj1 (C3_readCache_within_ttl Demo.runtime 1700000300000 ["foo/bar"] _ _
                    Hslot)).
  - exact (proj1 (C3_readCache_within_ttl Demo.runtime 1700000600001 ["foo/bar"] _ _
                    Hslot)).
Defined.

(** C7.  For every cache key, when the stored entry is corrupt or
    inaccessible (the store cannot be read, the text is not JSON, or the
    time stamp is missing) [readCache] returns [null]: the component mounts
    as on a cache miss, in the loading view and with no error recorded.
    [writeCache] never throws, and leaves the store unchanged when the
    entry cannot be serialised or the store rejects the write. *)
Theorem C7_corrupt_entry_is_cache_miss (rt : Runtime) (now : Z) (key : string)
    (st : Storage) :
  Corrupt rt st key →
  readCache rt now key st = (st, Ok VNull)
  ∧ (∀ props, cacheKey props = key →
       ∃ w, mount rt now props st = Ok w
            ∧ items w = VNull ∧ status w = st_loading ∧ error w = VNull
            ∧ render rt w = Ok LoadingView)
  ∧ (∀ now' key' data st',
       ∃ st'', writeCache rt now' key' data st' = (st'', Ok tt)
               ∧ (accessible st' = false
                  ∨ (∀ text,
                       JSON_stringify rt (VObj [("at", VNum now'); ("data", data)])
                       = Ok text →
                       accepts st' key' text = false)
                  → st'' = st')).
Proof.
  intros Hcorrupt.
  assert (readCache rt now key st = (st, Ok VNull)) as Hread.
  { rewrite readCache_eq.
    destruct Hcorrupt as [Hacc | raw e Hacc Hraw Hparse | raw fields Hacc Hraw Hparse Hat].
    - by rewrite Hacc.
    - rewrite Hacc, Hraw, Hparse. by destruct (String.eqb raw "").
    - rewrite Hacc, Hraw, Hparse. destruct (String.eqb raw ""); [done|].
      simpl. by rewrite Hat. }
  split; [done|]. split.
  - intros props <-. unfold mount, first_render. rewrite Hread. simpl.
    eexists. split; [reflexivity|]. done.
  - intros now' key' data st'. rewrite writeCache_eq.
    eexists. split; [reflexivity|].
    destruct (JSON_stringify rt _) as [text|]; [|done].
    intros [-> | Hrej]; [done|].
    rewrite (Hrej text eq_refl). by rewrite andb_false_r.
Qed.

Lemma C7_corrupt_entry_is_cache_miss_witness :
  readCache Demo.runtime 1700000300000 "gh:repos:foo/bar"
    (Demo.store [("gh:repos:foo/bar", "{not json")])
  = (Demo.store [("gh:repos:foo/bar", "{not json")], Ok VNull)
  ∧ readCache Demo.runtime 1700000300000 "gh:repos:foo/bar"
      (Demo.store [("gh:repos:foo/bar", Demo.stringify (VObj [("data", VArr [])]))])
    = (Demo.store [("gh:repos:foo/bar", Demo.stringify (VObj [("data", VArr [])]))],
       Ok VNull)
  ∧ readCache Demo.runtime 1700000300000 "gh:repos:foo/bar" Demo.locked_store
    = (Demo.locked_store, Ok VNull).
Proof.
  split; [|split].
  - refine (proj1 (C7_corrupt_entry_is_cache_miss Demo.runtime 1700000300000
                     "gh:repos:foo/bar" _ _)).
    eapply corrupt_unparsable;
      [reflexivity | vm_compute; reflexivity | vm_compute; reflexivity].
  - refine (proj1 (C7_corrupt_entry_is_cache_miss Demo.runtime 1700000300000
                     "gh:repos:foo/bar" _ _)).
    eapply corrupt_no_timestamp;
      [reflexivity | vm_compute; reflexivity | vm_compute; reflexivity | reflexivity].
  - refine (proj1 (C7_corrupt_entry_is_cache_miss Demo.runtime 1700000300000
                     "gh:repos:foo/bar" _ _)).
    by apply corrupt_unreadable.
Defined.

(** ** Number formatting *)

(** C8, as the claim has it, fails on a count that the response gives as
    an object with a [toString] field: [String(n)] in the handler throws a
    [TypeError], outside the [try], and [compact] throws it. *)
Lemma C8_compact_throws_where_String_throws :
  let n := VObj [("toString", VNum 1)] in
  (∃ e, Intl_NumberFormat_compact Demo.runtime = Throw e)
  ∧ ToString Demo.runtime n = Throw not_primitive
  ∧ compact Demo.runtime n = Throw not_primitive
  ∧ e_name not_primitive = "TypeError".
Proof. cbv zeta. split; [by eexists|]. by repeat split. Qed.

(** C8.  For every count [n], [compact n] is the compact formatting of [n]
    when the formatter is available, and what [String(n)] gives when the
    formatter cannot be built or its [format] throws.  [String(n)] returns
    for every primitive [n] (a number, a string, a boolean, [null],
    [undefined]), for a safe integer its decimal digits: on these [compact]
    returns a string and never throws.  It throws only what [String(n)]
    throws. *)
Theorem C8_compact_formats_or_falls_back (rt : Runtime) (n : value) :
  (∀ format s, Intl_NumberFormat_compact rt = Ok format → format n = Ok s →
     compact rt n = Ok s)
  ∧ (∀ e, Intl_NumberFormat_compact rt = Throw e → compact rt n = ToString rt n)
  ∧ (∀ format e, Intl_NumberFormat_compact rt = Ok format → format n = Throw e →
       compact rt n = ToString rt n)
  ∧ (primitive n = true → ∃ s, compact rt n = Ok s)
  ∧ (∀ k, n = VNum k → safe_integer k = true → ToString rt n = Ok (decimal k))
  ∧ (∀ e, compact rt n = Throw e → ToString rt n = Throw e).
Proof.
  unfold compact, try_catch, mbind, result_bind.
  split; [|split; [|split; [|split; [|split]]]].
  - by intros format s -> ->.
  - by intros e ->.
  - by intros format e -> ->.
  - intros Hn. destruct (ToString_primitive rt n Hn) as [s Hs].
    destruct (Intl_NumberFormat_compact rt) as [format|]; [|by eexists].
    destruct (format n); by eexists.
  - intros k -> Hk. unfold ToString, Number_toString. simpl.
    unfold Number_toString. by rewrite Hk.
  - intros e. destruct (Intl_NumberFormat_compact rt) as [format|]; [|done].
    by destruct (format n).
Qed.

(** [compact] returns on a primitive. *)
Lemma compact_primitive (rt : Runtime) (n : value) :
  primitive n = true → ∃ s, compact rt n = Ok s.
Proof.
  intros Hn. destruct (ToString_primitive rt n Hn) as [s Hs].
  unfold compact, try_catch, mbind, result_bind.
  destruct (Intl_NumberFormat_compact rt) as [format|]; [|by eexists].
  destruct (format n); by eexists.
Qed.

(** ** The counter *)

Lemma Counter_run_nonneg evs n : (0 ≤ n)%Z → (0 ≤ Counter.run evs n)%Z.
Proof.
  revert n. induction evs as [|ev evs IH]; intros n Hn; [done|].
  apply IH. destruct ev; unfold Counter.step, Counter.onClick, Counter.initial; lia.
Qed.

(** C9.  The counter holds one non-negative integer that starts at 0 and
    is shown as [Count: 0]; each activation replaces the state [n] by
    [n + 1], so that one activation shows [Count: 1]; the count lives in the
    view state alone: a remount starts again from 0 whatever came before. *)
Theorem C9_counter_counts_from_zero :
  Counter.initial = 0%Z
  ∧ Counter.render Counter.initial = "Count: 0"
  ∧ (∀ n, Counter.step n Counter.Click = (n + 1)%Z)
  ∧ Counter.render (Counter.run [Counter.Click] Counter.initial) = "Count: 1"
  ∧ (∀ evs, (0 ≤ Counter.run evs Counter.initial)%Z)
  ∧ (∀ evs n, Counter.run (evs ++ [Counter.Remount]) n = Counter.initial)
  ∧ (∀ evs n, Counter.render (Counter.run (evs ++ [Counter.Remount]) n) = "Count: 0").
Proof.
  repeat split; try done.
  - intros evs. by apply Counter_run_nonneg.
  - intros evs n. unfold Counter.run. by rewrite foldl_snoc.
  - intros evs n. unfold Counter.run. by rewrite foldl_snoc.
Qed.

(** ** Promise.all over the requests of one cycle *)

Section PromiseAll.
Context (rt : Runtime).

Lemma unfulfilled_replicate n : unfulfilled_count (replicate n None) = n.
Proof. induction n as [|n IH]; simpl; [done|]. by rewrite IH. Qed.

Lemma unfulfilled_insert_fulfilled ps i x :
  ps !! i = Some None →
  unfulfilled_count ps = S (unfulfilled_count (<[i := Some (Ok x)]> ps)).
Proof.
  revert i. induction ps as [|p ps IH]; intros [|i] Hi; simplify_eq/=; [done|].
  rewrite (IH i Hi). lia.
Qed.

Lemma unfulfilled_insert_rejected ps i e :
  ps !! i = Some None →
  unfulfilled_count (<[i := Some (Throw e)]> ps) = unfulfilled_count ps.
Proof.
  revert i. induction ps as [|p ps IH]; intros [|i] Hi; simplify_eq/=; [done|].
  by rewrite (IH i Hi).
Qed.

Lemma unfulfilled_zero ps i p :
  unfulfilled_count ps = 0 → ps !! i = Some p → fulfilled p = true.
Proof.
  revert i. induction ps as [|q ps IH]; intros [|i] H0 Hi; simplify_eq/=.
  - destruct (fulfilled p); [done|lia].
  - apply (IH i); [|done]. destruct (fulfilled q); lia.
Qed.

Lemma unfulfilled_all_fulfilled ps :
  (∀ i p, ps !! i = Some p → fulfilled p = true) → unfulfilled_count ps = 0.
Proof.
  induction ps as [|q ps IH]; intros H; simpl; [done|].
  rewrite (H 0 q eq_refl). simpl. apply IH. intros i p Hi. by apply (H (S i)).
Qed.

Lemma start_cycle_inv props key : cycle_inv (start_cycle props key).
Proof.
  split; simpl.
  - by rewrite length_replicate.
  - by rewrite length_replicate.
  - by rewrite unfulfilled_replicate.
  - intros i x Hi. apply lookup_replicate in Hi as [? _]. simplify_eq.
  - destruct props as [|r props]; simpl; [done|].
    split; [done|]. constructor; [done|].
    apply Forall_forall. intros p Hp. apply elem_of_replicate in Hp. by intuition subst.
Qed.

Lemma start_cycle_agrees nets props key : agrees rt nets (start_cycle props key).
Proof. intros i r Hi. simpl in Hi. apply lookup_replicate in Hi as [? _]. simplify_eq. Qed.

(** An arrival changes nothing of the closure but its promises. *)
Lemma arrive_frame i net c :
  c_repos (arrive rt i net c) = c_repos c
  ∧ c_cacheKey (arrive rt i net c) = c_cacheKey c
  ∧ cancelled (arrive rt i net c) = cancelled c
  ∧ resumed (arrive rt i net c) = resumed c.
Proof.
  unfold arrive, promise_settled.
  destruct (c_repos c !! i) as [r|]; [|done].
  destruct (promises c !! i) as [[?|]|]; [done| |done].
  by destruct (repoPromise rt r net).
Qed.

Lemma arrive_inv i net c : cycle_inv c → cycle_inv (arrive rt i net c).
Proof.
  intros [Hlen Hvals Hrem Hslots Hall]. unfold arrive.
  destruct (c_repos c !! i) as [r|] eqn:Hr; [|done].
  destruct (promises c !! i) as [[?|]|] eqn:Hp; [done| |done].
  assert (i < length (all_values c)) as Hi.
  { rewrite Hvals. by eapply lookup_lt_Some. }
  unfold promise_settled. destruct (repoPromise rt r net) as [x|e]; split; simpl.
  - by rewrite length_insert.
  - by rewrite length_insert.
  - rewrite Hrem, (unfulfilled_insert_fulfilled _ _ x Hp). lia.
  - intros j y Hj. destruct (decide (i = j)) as [<-|Hne].
    + rewrite list_lookup_insert_eq in Hj by (by eapply lookup_lt_Some).
      simplify_eq. by rewrite list_lookup_insert_eq.
    + rewrite list_lookup_insert_ne in Hj by done.
      rewrite list_lookup_insert_ne by done. by apply Hslots.
  - pose proof (unfulfilled_insert_fulfilled _ _ x Hp) as Hcount.
    destruct (all_promise c) as [[vs|e]|].
    + destruct Hall as [_ H0]. exfalso. lia.
    + destruct (all_remaining c - 1 =? 0)%nat; simpl;
        (apply Exists_exists in Hall as (q & Hq & Hrej);
         apply list_elem_of_lookup in Hq as [j Hj];
         apply Exists_exists; exists q; split; [|done];
         apply list_elem_of_lookup; exists j;
         rewrite list_lookup_insert_ne; [done|]; intros <-; simplify_eq).
    + destruct Hall as [Hne Hnorej].
      assert (Forall (λ p, rejected p = false) (<[i := Some (Ok x)]> (promises c))).
      { by apply Forall_insert. }
      destruct (Nat.eqb_spec (all_remaining c - 1) 0); simpl; [done|]. split; [lia|done].
  - by rewrite length_insert.
  - done.
  - by rewrite (unfulfilled_insert_rejected _ _ e Hp).
  - intros j y Hj. destruct (decide (i = j)) as [<-|Hne].
    + rewrite list_lookup_insert_eq in Hj by (by eapply lookup_lt_Some). simplify_eq.
    + rewrite list_lookup_insert_ne in Hj by done. by apply Hslots.
  - assert (Exists (λ p, rejected p = true) (<[i := Some (Throw e)]> (promises c))).
    { apply Exists_exists. exists (Some (Throw e)). split; [|done].
      apply list_elem_of_lookup. exists i.
      apply list_lookup_insert_eq. by eapply lookup_lt_Some. }
    destruct (all_promise c) as [[vs|e']|]; simpl; [|done|done].
    destruct Hall as [_ H0]. rewrite Hrem in H0.
    pose proof (unfulfilled_zero _ _ _ H0 Hp). done.
Qed.

Lemma arrive_agrees nets i net c :
  nets !! i = Some net → agrees rt nets c → agrees rt nets (arrive rt i net c).
Proof.
  intros Hnet Hagree j r. unfold arrive.
  destruct (c_repos c !! i) as [p|] eqn:Hp; [|by apply Hagree].
  destruct (promises c !! i) as [[?|]|] eqn:Hq; [by apply Hagree| |by apply Hagree].
  assert (promises (promise_settled i (repoPromise rt p net) c)
          = <[i := Some (repoPromise rt p net)]> (promises c)) as ->.
  { unfold promise_settled. by destruct (repoPromise rt p net). }
  assert (c_repos (promise_settled i (repoPromise rt p net) c) = c_repos c) as ->.
  { unfold promise_settled. by destruct (repoPromise rt p net). }
  destruct (decide (i = j)) as [<-|Hne].
  - rewrite list_lookup_insert_eq by (by eapply lookup_lt_Some).
    intros ?; simplify_eq. by exists p, net.
  - rewrite list_lookup_insert_ne by done. by apply Hagree.
Qed.

(** A settled promise stays as it settled. *)
Lemma arrive_settled_stays i net c j r :
  promises c !! j = Some (Some r) → promises (arrive rt i net c) !! j = Some (Some r).
Proof.
  intros Hj. unfold arrive.
  destruct (c_repos c !! i) as [p|]; [|done].
  destruct (promises c !! i) as [[?|]|] eqn:Hq; [done| |done].
  assert (i ≠ j) by (intros <-; simplify_eq).
  unfold promise_settled.
  destruct (repoPromise rt p net); simpl; by rewrite list_lookup_insert_ne.
Qed.

(** The promise [Promise.all] returned settles once. *)
Lemma arrive_all_promise_stays i net c o :
  all_promise c = Some o → all_promise (arrive rt i net c) = Some o.
Proof.
  intros Ho. unfold arrive.
  destruct (c_repos c !! i) as [p|]; [|done].
  destruct (promises c !! i) as [[?|]|]; [done| |done].
  unfold promise_settled.
  destruct (repoPromise rt p net); simpl; rewrite Ho; simpl; [|done].
  by destruct (all_remaining c - 1 =? 0)%nat.
Qed.

(** After its answer arrived, a request is settled. *)
Lemma arrive_settles i net c p :
  cycle_inv c → c_repos c !! i = Some p →
  ∃ r, promises (arrive rt i net c) !! i = Some (Some r).
Proof.
  intros Hinv Hp. unfold arrive. rewrite Hp.
  assert (i < length (promises c)) as Hi.
  { rewrite (inv_promises _ Hinv). by eapply lookup_lt_Some. }
  destruct (lookup_lt_is_Some_2 _ _ Hi) as [q Hq]. rewrite Hq.
  destruct q as [r|]; [by exists r|].
  exists (repoPromise rt p net). unfold promise_settled.
  destruct (repoPromise rt p net); simpl; by rewrite list_lookup_insert_eq.
Qed.

Lemma arrive_all_frame nets sched c :
  c_repos (arrive_all rt nets sched c) = c_repos c
  ∧ c_cacheKey (arrive_all rt nets sched c) = c_cacheKey c
  ∧ cancelled (arrive_all rt nets sched c) = cancelled c
  ∧ resumed (arrive_all rt nets sched c) = resumed c.
Proof.
  revert c. induction sched as [|i sched IH]; intros c; [done|].
  simpl. destruct (nets !! i) as [net|]; [|apply IH].
  destruct (IH (arrive rt i net c)) as (-> & -> & -> & ->). apply arrive_frame.
Qed.

Lemma arrive_all_inv nets sched c :
  cycle_inv c → cycle_inv (arrive_all rt nets sched c).
Proof.
  revert c. induction sched as [|i sched IH]; intros c Hinv; [done|].
  simpl. destruct (nets !! i) as [net|]; [|by apply IH].
  by apply IH, arrive_inv.
Qed.

Lemma arrive_all_agrees nets sched c :
  agrees rt nets c → agrees rt nets (arrive_all rt nets sched c).
Proof.
  revert c. induction sched as [|i sched IH]; intros c Hagree; [done|].
  simpl. destruct (nets !! i) as [net|] eqn:Hnet; [|by apply IH].
  by apply IH, arrive_agrees.
Qed.

Lemma arrive_all_settled_stays nets sched c j r :
  promises c !! j = Some (Some r) →
  promises (arrive_all rt nets sched c) !! j = Some (Some r).
Proof.
  revert c. induction sched as [|i sched IH]; intros c Hj; [done|].
  simpl. destruct (nets !! i) as [net|]; [|by apply IH].
  by apply IH, arrive_settled_stays.
Qed.

Lemma arrive_all_promise_settled nets sched c o :
  all_promise c = Some o → all_promise (arrive_all rt nets sched c) = Some o.
Proof.
  revert c. induction sched as [|i sched IH]; intros c Ho; [done|].
  simpl. destruct (nets !! i) as [net|]; [|by apply IH].
  by apply IH, arrive_all_promise_stays.
Qed.

Lemma arrive_all_settles nets sched c i p net :
  cycle_inv c → i ∈ sched → c_repos c !! i = Some p → nets !! i = Some net →
  ∃ r, promises (arrive_all rt nets sched c) !! i = Some (Some r).
Proof.
  revert c. induction sched as [|j sched IH]; intros c Hinv Hin Hp Hnet.
  - by apply elem_of_nil in Hin.
  - simpl. destruct (decide (i = j)) as [<-|Hne].
    + rewrite Hnet.
      destruct (arrive_settles i net c p Hinv Hp) as [r Hr].
      exists r. by apply arrive_all_settled_stays.
    + apply elem_of_cons in Hin as [?|Hin]; [done|].
      destruct (nets !! j) as [net'|]; [|by apply IH].
      apply IH; [by apply arrive_inv|done| |done].
      by rewrite (proj1 (arrive_frame j net' c)).
Qed.

(** Every answer arrived and every promise fulfilled: [Promise.all] fulfils
    with the summaries in the order of the identifiers, whatever the order
    of arrival. *)
Lemma arrive_all_fulfils nets sched props key :
  length nets = length props →
  (∀ i, i < length props → i ∈ sched) →
  Forall2 (λ r net, ∃ s, repoPromise rt r net = Ok s) props nets →
  all_promise (arrive_all rt nets sched (start_cycle props key))
  = Some (Ok (summaries rt props nets)).
Proof.
  intros Hlen Hall Hok.
  set (c := arrive_all rt nets sched (start_cycle props key)).
  assert (cycle_inv c) as Hinv by apply arrive_all_inv, start_cycle_inv.
  assert (agrees rt nets c) as Hagree by apply arrive_all_agrees, start_cycle_agrees.
  assert (c_repos c = props) as Hrepos
    by apply (proj1 (arrive_all_frame nets sched (start_cycle props key))).
  assert (∀ i r net, props !! i = Some r → nets !! i = Some net →
            ∃ s, repoPromise rt r net = Ok s ∧ promises c !! i = Some (Some (Ok s)))
    as Hfulfilled.
  { intros i r net Hr Hnet.
    destruct (Forall2_lookup_lr _ _ _ i r net Hok Hr Hnet) as [s Hs].
    exists s. split; [done|].
    destruct (arrive_all_settles nets sched (start_cycle props key) i r net)
      as [q Hq]; [apply start_cycle_inv| |done|done|].
    { apply Hall. by eapply lookup_lt_Some. }
    fold c in Hq. rewrite Hq.
    destruct (Hagree i q Hq) as (p' & net' & Hp' & Hnet' & ->).
    rewrite Hrepos in Hp'. simplify_eq. by rewrite Hs. }
  assert (all_remaining c = 0) as Hzero.
  { rewrite (inv_remaining _ Hinv). apply unfulfilled_all_fulfilled.
    intros i q Hq.
    assert (i < length props) as Hi.
    { rewrite <- Hrepos, <- (inv_promises _ Hinv). by eapply lookup_lt_Some. }
    destruct (lookup_lt_is_Some_2 props i Hi) as [r Hr].
    destruct (lookup_lt_is_Some_2 nets i ltac:(lia)) as [net Hnet].
    destruct (Hfulfilled i r net Hr Hnet) as (s & _ & Hs). by simplify_eq. }
  pose proof (inv_all _ Hinv) as Hstate.
  destruct (all_promise c) as [[vs|e]|].
  - destruct Hstate as [-> _]. do 2 f_equal.
    apply list_eq. intros i. unfold summaries. rewrite lookup_zip_with.
    destruct (props !! i) as [r|] eqn:Hr; simpl.
    + destruct (lookup_lt_is_Some_2 nets i) as [net Hnet].
      { rewrite Hlen. by eapply lookup_lt_Some. }
      rewrite Hnet. simpl.
      destruct (Hfulfilled i r net Hr Hnet) as (s & -> & Hs).
      by apply (inv_slots _ Hinv).
    + apply lookup_ge_None. rewrite (inv_values _ Hinv), Hrepos.
      by apply lookup_ge_None.
  - exfalso. apply Exists_exists in Hstate as (q & Hq & Hrej).
    apply list_elem_of_lookup in Hq as [i Hq].
    assert (i < length props) as Hi.
    { rewrite <- Hrepos, <- (inv_promises _ Hinv). by eapply lookup_lt_Some. }
    destruct (lookup_lt_is_Some_2 props i Hi) as [r Hr].
    destruct (lookup_lt_is_Some_2 nets i ltac:(lia)) as [net Hnet].
    destruct (Hfulfilled i r net Hr Hnet) as (s & _ & Hs). by simplify_eq.
  - by destruct Hstate.
Qed.

Lemma arrive_no_rejection i net c :
  (∀ p, c_repos c !! i = Some p → ∃ s, repoPromise rt p net = Ok s) →
  Forall (λ p, rejected p = false) (promises c) →
  Forall (λ p, rejected p = false) (promises (arrive rt i net c)).
Proof.
  intros Hok Hnorej. unfold arrive.
  destruct (c_repos c !! i) as [p|]; [|done].
  destruct (promises c !! i) as [[?|]|]; [done| |done].
  destruct (Hok p eq_refl) as [s ->]. simpl. by apply Forall_insert.
Qed.

(** The first rejection to arrive settles [Promise.all], with its reason;
    what arrives later does not change it. *)
Lemma arrive_all_rejects nets sched c e :
  cycle_inv c → agrees rt nets c →
  Forall (λ p, rejected p = false) (promises c) →
  first_rejection rt (c_repos c) nets sched = Some e →
  all_promise (arrive_all rt nets sched c) = Some (Throw e).
Proof.
  revert c. induction sched as [|i sched IH]; intros c Hinv Hagree Hnorej Hfirst; [done|].
  simpl in *.
  destruct (c_repos c !! i) as [p|] eqn:Hp; cycle 1.
  { destruct (nets !! i) as [net|]; [|by apply IH].
    assert (arrive rt i net c = c) as -> by (unfold arrive; by rewrite Hp).
    by apply IH. }
  destruct (nets !! i) as [net|] eqn:Hnet; [|by apply IH].
  destruct (repoPromise rt p net) as [s|e'] eqn:Hpromise.
  - apply IH.
    + by apply arrive_inv.
    + by apply arrive_agrees.
    + apply arrive_no_rejection; [|done]. intros p' ?. simplify_eq. by exists s.
    + by rewrite (proj1 (arrive_frame i net c)).
  - simplify_eq. apply arrive_all_promise_settled.
    unfold arrive. rewrite Hp.
    assert (i < length (promises c)) as Hi.
    { rewrite (inv_promises _ Hinv). by eapply lookup_lt_Some. }
    destruct (lookup_lt_is_Some_2 _ _ Hi) as [q Hq]. rewrite Hq.
    destruct q as [r|].
    { exfalso. destruct (Hagree i r Hq) as (p' & net' & ? & ? & ->). simplify_eq.
      rewrite Forall_forall in Hnorej.
      specialize (Hnorej _ (list_elem_of_lookup_2 _ _ _ Hq)).
      simpl in Hnorej. by rewrite Hpromise in Hnorej. }
    rewrite Hpromise. simpl.
    pose proof (inv_all _ Hinv) as Hstate.
    destruct (all_promise c) as [[vs|e']|]; [| |done].
    + exfalso. destruct Hstate as [_ H0]. rewrite (inv_remaining _ Hinv) in H0.
      by pose proof (unfulfilled_zero _ _ _ H0 Hq).
    + exfalso. apply Exists_exists in Hstate as (q & Hin & Hrej).
      rewrite Forall_forall in Hnorej. specialize (Hnorej _ Hin). congruence.
Qed.

End PromiseAll.

(** ** The component's transitions *)

Section Component.
Context (rt : Runtime).

Lemma with_cycles_id w : with_cycles (cycles w) w = w.
Proof. by destruct w. Qed.

Lemma run_app evs1 evs2 w :
  run rt (evs1 ++ evs2) w = run rt evs2 (run rt evs1 w).
Proof. unfold run. apply foldl_app. Qed.

(** Answers from the network touch the promises of their cycle and nothing
    else. *)
Lemma run_arrivals c nets sched w :
  run rt (arrivals c nets sched) w
  = with_cycles (alter (arrive_all rt nets sched) c (cycles w)) w.
Proof.
  revert w. induction sched as [|i sched IH]; intros w.
  - simpl. rewrite list_alter_id by done. by rewrite with_cycles_id.
  - unfold arrivals. simpl. destruct (nets !! i) as [net|] eqn:Hnet; simpl.
    + fold (arrivals c nets sched). unfold run in *. rewrite IH. simpl.
      unfold with_cycles. simpl. f_equal.
      rewrite list_alter_alter_eq. apply list_alter_ext; [|done].
      intros cyc _. simpl. by rewrite Hnet.
    + fold (arrivals c nets sched). unfold run in *. rewrite IH.
      f_equal. apply list_alter_ext; [|done].
      intros cyc _. simpl. by rewrite Hnet.
Qed.

(** The world a successful mount leaves: the state the cache gave, and one
    cycle in flight. *)
Lemma mount_Ok now props st w0 :
  mount rt now props st = Ok w0 →
  ∃ cached,
    readCache rt now (cacheKey props) st = (st, Ok cached)
    ∧ w0 = {| repos := props; items := cached;
              status := if truthy cached then st_ready else st_loading;
              error := VNull; mounted := true;
              cycles := [start_cycle props (cacheKey props)];
              localStorage := st |}.
Proof.
  unfold mount, first_render. rewrite readCache_eq.
  set (cached := if accessible st then _ else _).
  simpl. destruct (render rt _) as [v|]; simpl; [|done].
  destruct (reconcile rt v); simpl; [|done].
  intros [= <-]. by exists cached.
Qed.

(** One whole cycle of a freshly mounted component: the answers arrive,
    then the body continues past its [await]. *)
Lemma run_cycle now props st w0 nets sched now' outcome :
  mount rt now props st = Ok w0 →
  all_promise (arrive_all rt nets sched (start_cycle props (cacheKey props)))
    = Some outcome →
  let w := run rt (arrivals 0 nets sched ++ [Resume 0 now']) w0 in
  repos w = props
  ∧ match outcome with
    | Ok results =>
        items w = VArr results ∧ status w = st_ready ∧ error w = VNull
        ∧ localStorage w = (writeCache rt now' (cacheKey props) (VArr results) st).1
    | Throw e =>
        items w = items w0 ∧ status w = st_error ∧ error w = VStr (error_text e)
        ∧ localStorage w = st
    end.
Proof.
  intros Hmount Hall.
  destruct (mount_Ok _ _ _ _ Hmount) as (cached & _ & ->).
  rewrite run_app, run_arrivals. simpl.
  destruct (arrive_all_frame rt nets sched (start_cycle props (cacheKey props)))
    as (_ & Hkey & Hcancelled & Hresumed).
  simpl in Hkey, Hcancelled, Hresumed.
  rewrite Hresumed, Hall. unfold continuation. rewrite Hcancelled. simpl.
  destruct outcome as [results|e]; simpl; [|done].
  rewrite Hkey.
  by destruct (writeCache rt now' (cacheKey props) (VArr results) st).
Qed.

End Component.

(** ** Summaries and cards *)

Section Rendering.
Context (rt : Runtime).

Lemma GetV_field j k :
  j ≠ VNull → j ≠ VUndefined → GetV rt j k = Ok (field_of rt j k).
Proof. intros ? ?. unfold field_of. by destruct j. Qed.

(** The [then] callback builds the summary of the data model from any body
    but [null] and [undefined], and throws on these two. *)
Lemma repoSummary_eq r j :
  j ≠ VNull → j ≠ VUndefined → repoSummary rt r j = Ok (RepoSummary rt r j).
Proof.
  intros Hnull Hundef. unfold repoSummary.
  rewrite !(GetV_field j _ Hnull Hundef). reflexivity.
Qed.

Lemma repoSummary_nullish r j s :
  repoSummary rt r j = Ok s → j ≠ VNull ∧ j ≠ VUndefined.
Proof. by destruct j. Qed.

(** A request fulfils with the summary of the body it was answered with. *)
Lemma repoPromise_fulfils r net j :
  fetchRepo rt r net = Ok j → j ≠ VNull → j ≠ VUndefined →
  repoPromise rt r net = Ok (RepoSummary rt r j).
Proof.
  intros Hj Hnull Hundef. unfold repoPromise. rewrite Hj. simpl.
  by apply repoSummary_eq.
Qed.

Lemma repoPromise_Ok r net s :
  repoPromise rt r net = Ok s →
  ∃ j, fetchRepo rt r net = Ok j ∧ j ≠ VNull ∧ j ≠ VUndefined
       ∧ s = RepoSummary rt r j.
Proof.
  unfold repoPromise. destruct (fetchRepo rt r net) as [j|] eqn:Hj; [|done]. simpl.
  intros Hs. destruct (repoSummary_nullish r j s Hs) as [Hnull Hundef].
  rewrite (repoSummary_eq r j Hnull Hundef) in Hs. exists j. by simplify_eq.
Qed.

(** The card of a summary, in direct style: of all that [card] does, the
    three calls of [compact], the conversion of the date and the coercion
    of the key can throw. *)
Lemma card_RepoSummary r j :
  card rt (RepoSummary rt r j) =
  (stars ← compact rt (field_of rt j "stargazers_count");
   forks ← compact rt (field_of rt j "forks_count");
   issues ← compact rt (field_of rt j "open_issues_count");
   date ← ToPrimitive rt hint_number (field_of rt j "pushed_at");
   key ← React.element_key rt (field_of rt j "full_name");
   Ok {| card_key := key;
         card_href := field_of rt j "html_url";
         card_name := field_of rt j "name";
         card_language := when_truthy (field_of rt j "language");
         card_description := when_truthy (field_of rt j "description");
         card_stars := stars;
         card_forks := forks;
         card_issues := issues;
         card_updated := toLocaleDateString rt date |}).
Proof. reflexivity. Qed.

(** A card that was built shows the fields of the summary. *)
Lemma card_shows r j c :
  card rt (RepoSummary rt r j) = Ok c →
  card_href c = field_of rt j "html_url"
  ∧ card_name c = field_of rt j "name"
  ∧ card_language c = when_truthy (field_of rt j "language")
  ∧ card_description c = when_truthy (field_of rt j "description")
  ∧ compact rt (field_of rt j "stargazers_count") = Ok (card_stars c)
  ∧ compact rt (field_of rt j "forks_count") = Ok (card_forks c)
  ∧ compact rt (field_of rt j "open_issues_count") = Ok (card_issues c)
  ∧ (∃ date, ToPrimitive rt hint_number (field_of rt j "pushed_at") = Ok date
             ∧ card_updated c = toLocaleDateString rt date)
  ∧ React.element_key rt (field_of rt j "full_name") = Ok (card_key c).
Proof.
  rewrite card_RepoSummary. unfold mbind, result_bind.
  destruct (compact rt (field_of rt j "stargazers_count")) as [stars|]; [|done].
  destruct (compact rt (field_of rt j "forks_count")) as [forks|]; [|done].
  destruct (compact rt (field_of rt j "open_issues_count")) as [issues|]; [|done].
  destruct (ToPrimitive rt hint_number (field_of rt j "pushed_at")) as [date|]; [|done].
  destruct (React.element_key rt (field_of rt j "full_name")) as [key|]; [|done].
  intros [= <-]. simpl. repeat split. by exists date.
Qed.

Lemma element_key_primitive v :
  primitive v = true → ∃ key, React.element_key rt v = Ok key.
Proof.
  intros Hv. destruct v; try done; by eexists.
Qed.

Lemma child_primitive v : primitive v = true → React.child v = Ok tt.
Proof. by destruct v. Qed.

Lemma child_when_truthy v :
  primitive v = true → from_option React.child (Ok tt) (when_truthy v) = Ok tt.
Proof.
  intros Hv. unfold when_truthy. destruct (truthy v); [|done]. by apply child_primitive.
Qed.

Lemma attribute_primitive v :
  primitive v = true → ∃ a, React.attribute rt v = Ok a.
Proof.
  intros Hv. destruct v; try done; by eexists.
Qed.

Ltac in_fields := unfold summary_fields; repeat constructor.

(** The card of a summary whose fields are primitives is built, and React
    takes it in. *)
Lemma card_plain r j :
  plain_body rt j →
  ∃ c, card rt (RepoSummary rt r j) = Ok c ∧ reconcile_card rt c = Ok tt.
Proof.
  intros (_ & _ & Hfields).
  assert (∀ k, k ∈ summary_fields → primitive (field_of rt j k) = true) as Hk.
  { by apply Forall_forall. }
  assert (∀ k, k ∈ summary_fields → ∃ s, compact rt (field_of rt j k) = Ok s) as Hcompact.
  { intros k Hin. apply compact_primitive. by apply Hk. }
  destruct (Hcompact "stargazers_count") as [stars Hstars]; [in_fields|].
  destruct (Hcompact "forks_count") as [forks Hforks]; [in_fields|].
  destruct (Hcompact "open_issues_count") as [issues Hissues]; [in_fields|].
  destruct (ToPrimitive_primitive rt hint_number (field_of rt j "pushed_at"))
    as (date & _ & Hdate); [apply Hk; in_fields|].
  destruct (element_key_primitive (field_of rt j "full_name")) as [key Hkey];
    [apply Hk; in_fields|].
  destruct (attribute_primitive (field_of rt j "html_url")) as [a Ha];
    [apply Hk; in_fields|].
  rewrite card_RepoSummary, Hstars, Hforks, Hissues, Hdate, Hkey. simpl.
  eexists. split; [reflexivity|].
  unfold reconcile_card. simpl.
  rewrite child_primitive by (apply Hk; in_fields). simpl.
  rewrite child_when_truthy by (apply Hk; in_fields). simpl.
  rewrite child_when_truthy by (apply Hk; in_fields). simpl.
  by rewrite Ha.
Qed.

(** [mapM] in the monad of results: it returns when every call does, and
    what it returns lines up with the list it was given. *)
Lemma mapM_Ok {A B} (f : A → result B) (l : list A) :
  Forall (λ x, ∃ y, f x = Ok y) l →
  ∃ ys, mapM f l = Ok ys ∧ Forall2 (λ x y, f x = Ok y) l ys.
Proof.
  induction 1 as [|x l [y Hy] _ (ys & Hys & Hall)].
  - by exists [].
  - exists (y :: ys). simpl. rewrite Hy. simpl. rewrite Hys. simpl.
    split; [done|]. by constructor.
Qed.

Lemma mapM_Ok_inv {A B} (f : A → result B) (l : list A) (ys : list B) :
  mapM f l = Ok ys → Forall2 (λ x y, f x = Ok y) l ys.
Proof.
  revert ys. induction l as [|x l IH]; intros ys; simpl.
  - intros [= <-]. constructor.
  - unfold mbind, result_bind, mret, result_ret.
    destruct (f x) as [y|] eqn:Hy; [|done].
    destruct (mapM f l) as [ys'|]; [|done].
    intros [= <-]. constructor; [done|]. by apply IH.
Qed.

End Rendering.

(** ** The fetch cycle *)

Lemma summaries_lookup rt props nets i r net j :
  props !! i = Some r → nets !! i = Some net →
  fetchRepo rt r net = Ok j → j ≠ VNull → j ≠ VUndefined →
  summaries rt props nets !! i = Some (RepoSummary rt r j).
Proof.
  intros Hr Hnet Hj Hnull Hundef.
  unfold summaries. rewrite lookup_zip_with, Hr. simpl. rewrite Hnet. simpl.
  by rewrite (repoPromise_fulfils rt r net j Hj Hnull Hundef).
Qed.

(** The grid of a batch whose bodies have primitive fields: every card is
    built, and React takes every card in. *)
Lemma plain_grid rt props nets :
  Forall2 (λ r net, ∃ j, fetchRepo rt r net = Ok j ∧ plain_body rt j) props nets →
  ∃ cards, mapM (card rt) (summaries rt props nets) = Ok cards
           ∧ reconcile rt (GridView (Some cards)) = Ok tt.
Proof.
  intros Hplain.
  assert (∀ i s, summaries rt props nets !! i = Some s →
            ∃ c, card rt s = Ok c ∧ reconcile_card rt c = Ok tt) as Hcard.
  { intros i s Hs. unfold summaries in Hs.
    apply lookup_zip_with_Some in Hs as (r & net & -> & Hr & Hnet).
    destruct (Forall2_lookup_lr _ _ _ i r net Hplain Hr Hnet) as (j & Hj & Hpl).
    rewrite (repoPromise_fulfils rt r net j Hj (proj1 Hpl) (proj1 (proj2 Hpl))).
    by apply card_plain. }
  destruct (mapM_Ok (card rt) (summaries rt props nets)) as (cards & Hcards & Hall2).
  { apply Forall_forall. intros s Hs. apply list_elem_of_lookup in Hs as [i Hs].
    destruct (Hcard i s Hs) as (c & Hc & _). by exists c. }
  destruct (mapM_Ok (reconcile_card rt) cards) as (us & Hus & _).
  { apply Forall_forall. intros c Hc. apply list_elem_of_lookup in Hc as [i Hc].
    destruct (Forall2_lookup_r _ _ _ i _ Hall2 Hc) as (s & Hs & Hsc).
    destruct (Hcard i s Hs) as (c' & Hc' & Hrec). rewrite Hsc in Hc'.
    simplify_eq. by exists tt. }
  exists cards. split; [done|]. simpl. by rewrite Hus.
Qed.

(** A batch of bodies other than [null] and [undefined] is one whose
    promises all fulfil. *)
Lemma fetched_fulfils rt props nets :
  Forall2 (λ r net, ∃ j, fetchRepo rt r net = Ok j ∧ j ≠ VNull ∧ j ≠ VUndefined)
          props nets →
  Forall2 (λ r net, ∃ s, repoPromise rt r net = Ok s) props nets.
Proof.
  intros Hok. eapply Forall2_impl; [exact Hok|].
  intros r net (j & Hj & Hnull & Hundef). eexists. by apply repoPromise_fulfils.
Qed.


(** C1, as the claim has it, fails on a response that succeeds with the
    body [null]: the fetch fulfils, with [null], yet the [then] callback
    throws on it, the cycle fails, and no list of summaries reaches the
    state. *)
Lemma C1_fetch_succeeds_with_null_body :
  let w0 := Demo.mounted_world (mount Demo.runtime 1700000000000 ["a/b"] (Demo.store [])) in
  let nets := [Demo.ok_response VNull] in
  let w := run Demo.runtime (arrivals 0 nets [0] ++ [Resume 0 1700000000500]) w0 in
  mount Demo.runtime 1700000000000 ["a/b"] (Demo.store []) = Ok w0
  ∧ Forall2 (λ r net, ∃ j, fetchRepo Demo.runtime r net = Ok j) ["a/b"] nets
  ∧ (∀ l, items w ≠ VArr l)
  ∧ status w = st_error.
Proof.
  cbv zeta. split; [vm_compute; reflexivity|]. split; [|split].
  - repeat constructor. by exists VNull.
  - intros l. vm_compute. discriminate.
  - vm_compute. reflexivity.
Qed.

(** C1.  For every list of identifiers, when every per-identifier fetch
    succeeds with a body other than [null] (and [undefined]), the list
    handed to [setItems] holds exactly one summary per identifier, in the
    order of the identifiers, whatever the order [sched] in which the
    responses arrive: the summary at each position is the one of the data
    model, built from the identifier and the body of its own response.
    Whenever the grid renders it has one card per identifier in that order,
    each showing the fields of its own response; and it does render, and
    React takes it in, when the fields of the bodies are primitives. *)
Theorem C1_items_follow_identifier_order (rt : Runtime) (now : Z)
    (props : list string) (st : Storage) (w0 : World)
    (nets : list FetchOutcome) (sched : list nat) (now' : Z) :
  mount rt now props st = Ok w0 →
  length nets = length props →
  (∀ i, i < length props → i ∈ sched) →
  Forall2 (λ r net, ∃ j, fetchRepo rt r net = Ok j ∧ j ≠ VNull ∧ j ≠ VUndefined)
          props nets →
  let w := run rt (arrivals 0 nets sched ++ [Resume 0 now']) w0 in
  items w = VArr (summaries rt props nets)
  ∧ status w = st_ready
  ∧ length (summaries rt props nets) = length props
  ∧ (∀ i r net, props !! i = Some r → nets !! i = Some net →
       ∃ j, fetchRepo rt r net = Ok j
            ∧ summaries rt props nets !! i = Some (RepoSummary rt r j)
            ∧ GetV rt (RepoSummary rt r j) "id" = Ok (VStr r)
            ∧ ∀ k, k ∈ summary_fields →
                GetV rt (RepoSummary rt r j) k = GetV rt j k)
  ∧ (∀ v, render rt w = Ok v →
       ∃ cards, v = GridView (Some cards)
                ∧ length cards = length props
                ∧ ∀ i r net, props !! i = Some r → nets !! i = Some net →
                    ∃ j c, fetchRepo rt r net = Ok j
                           ∧ cards !! i = Some c
                           ∧ GetV rt j "name" = Ok (card_name c)
                           ∧ GetV rt j "html_url" = Ok (card_href c)
                           ∧ (full_name ← GetV rt j "full_name";
                              React.element_key rt full_name) = Ok (card_key c))
  ∧ (Forall2 (λ r net, ∃ j, fetchRepo rt r net = Ok j ∧ plain_body rt j) props nets →
     ∃ cards, render rt w = Ok (GridView (Some cards))
              ∧ reconcile rt (GridView (Some cards)) = Ok tt).
Proof.
  intros Hmount Hlen Hsched Hok w.
  pose proof (fetched_fulfils rt props nets Hok) as Hok'.
  pose proof (arrive_all_fulfils rt nets sched props (cacheKey props) Hlen Hsched Hok')
    as Hall.
  destruct (run_cycle rt now props st w0 nets sched now' _ Hmount Hall)
    as (Hrepos & Hitems & Hstatus & _ & _).
  fold w in Hrepos, Hitems, Hstatus.
  assert (length (summaries rt props nets) = length props) as Hlength.
  { unfold summaries. rewrite length_zip_with. lia. }
  assert (∀ i r net, props !! i = Some r → nets !! i = Some net →
            ∃ j, fetchRepo rt r net = Ok j ∧ j ≠ VNull ∧ j ≠ VUndefined
                 ∧ summaries rt props nets !! i = Some (RepoSummary rt r j)) as Hat.
  { intros i r net Hr Hnet.
    destruct (Forall2_lookup_lr _ _ _ i r net Hok Hr Hnet) as (j & Hj & Hnull & Hundef).
    exists j. repeat split; try done. by apply (summaries_lookup rt props nets i r net j). }
  split; [done|]. split; [done|]. split; [done|]. split; [|split].
  - intros i r net Hr Hnet.
    destruct (Hat i r net Hr Hnet) as (j & Hj & Hnull & Hundef & Hs).
    exists j. split; [done|]. split; [done|]. split; [done|].
    intros k Hk. rewrite (GetV_field rt j k Hnull Hundef).
    unfold summary_fields in Hk.
    repeat (apply elem_of_cons in Hk as [->|Hk]; [reflexivity|]).
    by apply elem_of_nil in Hk.
  - intros v. unfold render. rewrite Hstatus, Hitems.
    destruct (mapM (card rt) (summaries rt props nets)) as [cards|] eqn:Hcards; [|done].
    intros [= <-]. exists cards.
    pose proof (mapM_Ok_inv _ _ _ Hcards) as Hall2.
    split; [done|]. split; [by rewrite <- (Forall2_length _ _ _ Hall2)|].
    intros i r net Hr Hnet.
    destruct (Hat i r net Hr Hnet) as (j & Hj & Hnull & Hundef & Hs).
    destruct (Forall2_lookup_l _ _ _ i _ Hall2 Hs) as (c & Hc & Hcard).
    destruct (card_shows rt r j c Hcard) as (Hhref & Hname & _ & _ & _ & _ & _ & _ & Hkey).
    exists j, c. rewrite !(GetV_field rt j _ Hnull Hundef), Hhref, Hname.
    by repeat split.
  - intros Hplain.
    destruct (plain_grid rt props nets Hplain) as (cards & Hcards & Hrec).
    exists cards. split; [|done].
    unfold render. by rewrite Hstatus, Hitems, Hcards.
Qed.

Lemma C1_items_follow_identifier_order_witness :
  let w := run Demo.runtime (arrivals 0 Demo.both_ok [1; 0] ++ [Resume 0 1700000000500])
               Demo.two_mounted in
  items w = VArr (summaries Demo.runtime Demo.two_repos Demo.both_ok)
  ∧ status w = st_ready.
Proof.
  assert (mount Demo.runtime 1700000000000 Demo.two_repos (Demo.store [])
          = Ok Demo.two_mounted) as Hmount by (vm_compute; reflexivity).
  assert (length Demo.both_ok = length Demo.two_repos) as Hlen by reflexivity.
  assert (∀ i, i < length Demo.two_repos → i ∈ [1; 0]) as Hsched.
  { intros [|[|i]] Hi; [set_solver|set_solver|simpl in Hi; lia]. }
  assert (Forall2 (λ r net, ∃ j, fetchRepo Demo.runtime r net = Ok j
                                 ∧ j ≠ VNull ∧ j ≠ VUndefined)
            Demo.two_repos Demo.both_ok) as Hok.
  { repeat constructor; eexists; (split; [vm_compute; reflexivity|split; discriminate]). }
  pose proof (C1_items_follow_identifier_order Demo.runtime 1700000000000
                Demo.two_repos (Demo.store []) Demo.two_mounted Demo.both_ok [1; 0]
                1700000000500 Hmount Hlen Hsched Hok) as H.
  exact (conj (proj1 H) (proj1 (proj2 H))).
Defined.

Section Failure.
Context (rt : Runtime).

Lemma first_rejection_exists props nets sched i r net e :
  i ∈ sched → props !! i = Some r → nets !! i = Some net →
  repoPromise rt r net = Throw e →
  ∃ e1, first_rejection rt props nets sched = Some e1.
Proof.
  intros Hin Hr Hnet He. induction sched as [|k sched IH].
  - by apply elem_of_nil in Hin.
  - simpl. apply elem_of_cons in Hin as [<-|Hin].
    + rewrite Hr, Hnet, He. by eexists.
    + destruct (IH Hin) as [e1 He1].
      destruct (props !! k) as [r'|]; [|by eexists].
      destruct (nets !! k) as [net'|]; [|by eexists].
      destruct (repoPromise rt r' net'); by eexists.
Qed.

(** A cycle whose first rejection to arrive has the reason [e]: the status
    becomes [error], the text of [e] is recorded and shown with one badge
    per identifier, and nothing else changes. *)
Lemma cycle_fails now props st w0 nets sched now' e :
  mount rt now props st = Ok w0 →
  first_rejection rt props nets sched = Some e →
  let w := run rt (arrivals 0 nets sched ++ [Resume 0 now']) w0 in
  repos w = props
  ∧ items w = items w0
  ∧ status w = st_error
  ∧ error w = VStr (error_text e)
  ∧ localStorage w = st
  ∧ render rt w = Ok (ErrorView (VStr (error_text e)) (map badge props)).
Proof.
  intros Hmount Hfirst w.
  assert (all_promise (arrive_all rt nets sched (start_cycle props (cacheKey props)))
          = Some (Throw e)) as Hall.
  { apply arrive_all_rejects; [apply start_cycle_inv|apply start_cycle_agrees| |done].
    simpl. apply Forall_forall. intros p Hp.
    apply elem_of_replicate in Hp as [-> _]. done. }
  destruct (run_cycle rt now props st w0 nets sched now' _ Hmount Hall)
    as (Hrepos & Hitems & Hstatus & Herror & Hstore).
  fold w in Hrepos, Hitems, Hstatus, Herror, Hstore.
  repeat split; try done.
  unfold render. by rewrite Hstatus, Herror, Hrepos.
Qed.

End Failure.

(** C2.  When at least one per-identifier fetch fails, the whole cycle
    fails: the status becomes [error] and the component returns the error
    view, which React takes in, with the text of the first failure to
    arrive and one fallback badge per identifier, in the order of the
    identifiers: a link to the page of the repository on GitHub around the
    image of its star count from shields.io.  Nothing of the fetches that
    succeeded is shown: [items] is left as it was, and the view is the same
    for any other answers whose first failure is the same. *)
Theorem C2_one_failure_fails_the_batch (rt : Runtime) (now : Z)
    (props : list string) (st : Storage) (w0 : World)
    (nets : list FetchOutcome) (sched : list nat) (now' : Z)
    (i : nat) (r : string) (net : FetchOutcome) (e : JSError) :
  mount rt now props st = Ok w0 →
  i ∈ sched → props !! i = Some r → nets !! i = Some net →
  repoPromise rt r net = Throw e →
  let w := run rt (arrivals 0 nets sched ++ [Resume 0 now']) w0 in
  ∃ e1 badges,
    first_rejection rt props nets sched = Some e1
    ∧ status w = st_error
    ∧ error w = VStr (error_text e1)
    ∧ items w = items w0
    ∧ render rt w = Ok (ErrorView (VStr (error_text e1)) badges)
    ∧ reconcile rt (ErrorView (VStr (error_text e1)) badges) = Ok tt
    ∧ length badges = length props
    ∧ (∀ k p, props !! k = Some p →
         ∃ b, badges !! k = Some b
              ∧ badge_key b = p
              ∧ badge_href b = "https://github.com/" +:+ p
              ∧ badge_alt b = p +:+ " stars"
              ∧ badge_src b
                = "https://img.shields.io/github/stars/" +:+ p +:+ "?style=flat")
    ∧ ∀ nets' sched',
        first_rejection rt props nets' sched' = Some e1 →
        render rt (run rt (arrivals 0 nets' sched' ++ [Resume 0 now']) w0)
        = render rt w.
Proof.
  intros Hmount Hin Hr Hnet He w.
  destruct (first_rejection_exists rt props nets sched i r net e Hin Hr Hnet He)
    as [e1 He1].
  destruct (cycle_fails rt now props st w0 nets sched now' e1 Hmount He1)
    as (_ & Hitems & Hstatus & Herror & _ & Hrender).
  exists e1, (map badge props).
  split; [done|]. split; [done|]. split; [done|]. split; [done|]. split; [done|].
  split; [done|]. split; [by rewrite length_map|]. split.
  - intros k p Hp. exists (badge p). split; [|done].
    by rewrite list_lookup_fmap, Hp.
  - intros nets' sched' He1'.
    destruct (cycle_fails rt now props st w0 nets' sched' now' e1 Hmount He1')
      as (_ & _ & _ & _ & _ & Hrender').
    fold w in Hrender. by rewrite Hrender, Hrender'.
Qed.

Lemma C2_one_failure_fails_the_batch_witness :
  let w := run Demo.runtime (arrivals 0 Demo.second_404 [0; 1] ++ [Resume 0 1700000000500])
               Demo.two_mounted in
  ∃ e1, first_rejection Demo.runtime Demo.two_repos Demo.second_404 [0; 1] = Some e1
        ∧ status w = st_error.
Proof.
  assert (mount Demo.runtime 1700000000000 Demo.two_repos (Demo.store [])
          = Ok Demo.two_mounted) as Hmount by (vm_compute; reflexivity).
  assert (1 ∈ [0; 1]) as Hin by (repeat constructor).
  destruct (C2_one_failure_fails_the_batch Demo.runtime 1700000000000
              Demo.two_repos (Demo.store []) Demo.two_mounted Demo.second_404 [0; 1]
              1700000000500 1 "c/d" (Demo.status_response 404) (Error "c/d 404")
              Hmount Hin eq_refl eq_refl eq_refl) as (e1 & badges & He1 & Hstatus & _).
  exists e1. by split.
Defined.

(** ** What fails a fetch, and what the user is told *)

Lemma error_text_message e : e_message e ≠ "" → error_text e = e_message e.
Proof.
  intros Hne. unfold error_text. simpl.
  by destruct (String.eqb_spec (e_message e) "").
Qed.

(** An error without a message is shown by its name. *)
Lemma error_text_name e : e_message e = "" → error_text e = e_name e.
Proof.
  intros Hmsg. unfold error_text, error_toString. rewrite Hmsg. simpl.
  by destruct (String.eqb_spec (e_name e) "").
Qed.

Lemma status_error_text r digits :
  error_text (Error (r +:+ " " +:+ digits)) = r +:+ " " +:+ digits.
Proof. apply error_text_message. simpl. by destruct r. Qed.

(** The scenario of the specification: of the two requests for [a/b] and
    [c/d] only the second answers 404. *)
Lemma first_rejection_second_404 rt res j s sched :
  res_ok res = true → res_json res = Ok j → repoSummary rt "a/b" j = Ok s →
  1 ∈ sched →
  first_rejection rt ["a/b"; "c/d"]
    [Ok res; Ok {| res_ok := false; res_status := 404; res_json := Ok VNull |}] sched
  = Some (Error "c/d 404").
Proof.
  intros Hok Hjson Hs Hin. induction sched as [|k sched IH].
  - by apply elem_of_nil in Hin.
  - destruct k as [|[|k]]; simpl.
    + unfold repoPromise, fetchRepo. simpl. rewrite Hok, Hjson. simpl. rewrite Hs.
      apply IH. apply elem_of_cons in Hin as [?|?]; [done|done].
    + done.
    + apply IH. apply elem_of_cons in Hin as [?|?]; [done|done].
Qed.

(** The claim as first stated has a fetch fail exactly when its response
    has a non-success status, and the message of the error shown.  A
    request that gets no response fails as well, and so does one whose
    success response has a body that does not decode; and of an error
    without a message, such as a transport may throw, the name is shown. *)
Lemma C4_fetch_fails_without_failure_status :
  (∃ e, fetchRepo Demo.runtime "a/b" (Throw (TypeError "Failed to fetch")) = Throw e)
  ∧ ¬ (∃ res, (Throw (TypeError "Failed to fetch") : FetchOutcome) = Ok res
              ∧ res_ok res = false)
  ∧ fetchRepo Demo.runtime "a/b"
      (Ok {| res_ok := true; res_status := 200;
             res_json := Throw (SyntaxError "Unexpected token") |})
    = Throw (SyntaxError "Unexpected token")
  ∧ (let e := {| e_name := "AbortError"; e_message := "" |} in
     let w := run Demo.runtime (arrivals 0 [Throw e] [0] ++ [Resume 0 1700000000500])
                (Demo.mounted_world
                   (mount Demo.runtime 1700000000000 ["a/b"] (Demo.store []))) in
     error w = VStr "AbortError" ∧ error w ≠ VStr (e_message e)).
Proof.
  split; [by eexists|]. split; [|split; [done|]].
  - intros (res & Hres & _). discriminate.
  - cbv zeta. split; [vm_compute; reflexivity|vm_compute; discriminate].
Qed.

(** C4, amended.  A fetch for an identifier fails when its response has a
    non-success status, with an error whose message is the identifier, a
    space and the status code; with a success status it settles as the
    decoding of the body does, and with no response at all it fails with
    the error of the transport.  When the cycle fails, the text
    [String(e?.message || e)] of the first error [e] to arrive is recorded
    and shown in the error view: the message of the error when it has one,
    and the name of the error when its message is empty.  In particular,
    for the identifiers [a/b] and [c/d] of which only the second is
    answered 404, the text is [c/d 404], in whatever order the answers
    arrive. *)
Theorem C4_first_fetch_error_is_surfaced (rt : Runtime) (now : Z)
    (props : list string) (st : Storage) (w0 : World)
    (nets : list FetchOutcome) (sched : list nat) (now' : Z) (e : JSError) :
  mount rt now props st = Ok w0 →
  first_rejection rt props nets sched = Some e →
  let w := run rt (arrivals 0 nets sched ++ [Resume 0 now']) w0 in
  (∀ r res, res_ok res = false →
     fetchRepo rt r (Ok res)
     = Throw (Error (r +:+ " " +:+ Number_toString rt (res_status res))))
  ∧ (∀ code, safe_integer code = true → Number_toString rt code = decimal code)
  ∧ (∀ r res, res_ok res = true → fetchRepo rt r (Ok res) = res_json res)
  ∧ (∀ r e', fetchRepo rt r (Throw e') = Throw e')
  ∧ status w = st_error
  ∧ error w = VStr (error_text e)
  ∧ render rt w = Ok (ErrorView (VStr (error_text e)) (map badge props))
  ∧ (e_message e ≠ "" → error_text e = e_message e)
  ∧ (e_message e = "" → error_text e = e_name e)
  ∧ (∀ r code, e = Error (r +:+ " " +:+ Number_toString rt code) →
       error w = VStr (r +:+ " " +:+ Number_toString rt code))
  ∧ (∀ now1 st1 w1 res j s sched1 now2,
       mount rt now1 ["a/b"; "c/d"] st1 = Ok w1 →
       res_ok res = true → res_json res = Ok j → repoSummary rt "a/b" j = Ok s →
       1 ∈ sched1 →
       let w' := run rt (arrivals 0
                           [Ok res; Ok {| res_ok := false; res_status := 404;
                                          res_json := Ok VNull |}] sched1
                         ++ [Resume 0 now2]) w1 in
       error w' = VStr "c/d 404"
       ∧ render rt w' = Ok (ErrorView (VStr "c/d 404") [badge "a/b"; badge "c/d"])).
Proof.
  intros Hmount Hfirst w.
  destruct (cycle_fails rt now props st w0 nets sched now' e Hmount Hfirst)
    as (_ & _ & Hstatus & Herror & _ & Hrender).
  fold w in Hstatus, Herror, Hrender.
  split. { intros r res Hok. unfold fetchRepo. simpl. by rewrite Hok. }
  split. { intros code Hcode. unfold Number_toString. by rewrite Hcode. }
  split. { intros r res Hok. unfold fetchRepo. simpl. by rewrite Hok. }
  split; [done|]. split; [done|]. split; [done|]. split; [done|].
  split; [apply error_text_message|].
  split; [apply error_text_name|].
  split. { intros r code ->. by rewrite Herror, status_error_text. }
  intros now1 st1 w1 res j s sched1 now2 Hmount1 Hok Hjson Hs Hin w'.
  pose proof (first_rejection_second_404 rt res j s sched1 Hok Hjson Hs Hin) as Hfirst1.
  destruct (cycle_fails rt now1 _ st1 w1 _ sched1 now2 _ Hmount1 Hfirst1)
    as (_ & _ & _ & Herror1 & _ & Hrender1).
  by split.
Qed.

Lemma C4_first_fetch_error_is_surfaced_witness :
  let w := run Demo.runtime (arrivals 0 Demo.second_404 [1; 0] ++ [Resume 0 1700000000500])
               Demo.two_mounted in
  error w = VStr "c/d 404"
  ∧ render Demo.runtime w
    = Ok (ErrorView (VStr "c/d 404") [badge "a/b"; badge "c/d"]).
Proof.
  assert (mount Demo.runtime 1700000000000 Demo.two_repos (Demo.store [])
          = Ok Demo.two_mounted) as Hmount by (vm_compute; reflexivity).
  assert (first_rejection Demo.runtime Demo.two_repos Demo.second_404 [1; 0]
          = Some (Error "c/d 404")) as Hfirst by (vm_compute; reflexivity).
  pose proof (C4_first_fetch_error_is_surfaced Demo.runtime 1700000000000
                Demo.two_repos (Demo.store []) Demo.two_mounted Demo.second_404 [1; 0]
                1700000000500 (Error "c/d 404") Hmount Hfirst)
    as (_ & _ & _ & _ & _ & Herror & Hrender & _).
  exact (conj Herror Hrender).
Defined.

(** ** Reachable worlds *)

Section Reachability.
Context (rt : Runtime).

Lemma world_inv_alter f c w :
  (∀ cyc, cancelled (f cyc) = cancelled cyc) →
  (∀ cyc, c_cacheKey (f cyc) = c_cacheKey cyc) →
  (∀ cyc, cycle_inv cyc → cycle_inv (f cyc)) →
  world_inv w → world_inv (with_cycles (alter f c (cycles w)) w).
Proof.
  intros Hflag Hkey Hinv [Hcycles Hstale Hunmounted Hlast]. split; simpl.
  - apply Forall_alter; [done|]. intros cyc _. apply Hinv.
  - intros c0 cyc0 Hlook Hlt. rewrite length_alter in Hlt.
    rewrite list_lookup_alter in Hlook. case_decide as Hc.
    + subst c0. destruct (cycles w !! c) as [cyc|] eqn:Hcyc; simplify_eq/=.
      rewrite Hflag. by eapply Hstale.
    + by eapply Hstale.
  - intros Hm. apply Forall_alter; [by apply Hunmounted|].
    intros cyc _ ?. by rewrite Hflag.
  - intros Hm. destruct (Hlast Hm) as (cyc & Hcyc & Hk).
    rewrite last_lookup in Hcyc. rewrite last_lookup, length_alter, list_lookup_alter.
    case_decide.
    + subst c. rewrite Hcyc. simpl. exists (f cyc). by rewrite Hkey.
    + by exists cyc.
Qed.

Lemma world_inv_fields w w' :
  cycles w' = cycles w → mounted w' = mounted w →
  cacheKey (repos w') = cacheKey (repos w) →
  world_inv w → world_inv w'.
Proof.
  intros Hc Hm Hr [Hcycles Hstale Hunmounted Hlast].
  split; rewrite ?Hc, ?Hm, ?Hr; done.
Qed.

Lemma continuation_frame now cyc outcome w :
  cycles (continuation rt now cyc outcome w) = cycles w
  ∧ mounted (continuation rt now cyc outcome w) = mounted w
  ∧ repos (continuation rt now cyc outcome w) = repos w.
Proof.
  unfold continuation. destruct outcome as [results|e], (cancelled cyc); simpl; try done.
  by destruct (writeCache rt now (c_cacheKey cyc) (VArr results) (localStorage w)).
Qed.

Lemma cleanup_inv cyc : cycle_inv cyc → cycle_inv (cleanup cyc).
Proof. by intros []. Qed.

Lemma mark_resumed_inv cyc : cycle_inv cyc → cycle_inv (mark_resumed cyc).
Proof. by intros []. Qed.

(** After the cleanup of the latest run, every cycle has its flag set. *)
Lemma cleanup_cancels_all (l : list Cycle) :
  (∀ c cyc, l !! c = Some cyc → S c < length l → cancelled cyc = true) →
  Forall (λ cyc, cancelled cyc = true) (alter cleanup (length l - 1) l).
Proof.
  intros Hstale. apply Forall_lookup. intros c cyc.
  rewrite list_lookup_alter. case_decide as Hc.
  - destruct (l !! (length l - 1)); intros; by simplify_eq/=.
  - intros Hcyc. apply (Hstale c cyc Hcyc).
    pose proof (lookup_lt_Some _ _ _ Hcyc). lia.
Qed.

Lemma mount_world_inv now props st w : mount rt now props st = Ok w → world_inv w.
Proof.
  intros Hmount. destruct (mount_Ok rt _ _ _ _ Hmount) as (cached & _ & ->).
  split; simpl.
  - apply Forall_singleton, start_cycle_inv.
  - intros c cyc Hc Hlt. lia.
  - done.
  - intros _. by eexists.
Qed.

Lemma step_world_inv ev w : world_inv w → world_inv (step rt ev w).
Proof.
  intros Hw. destruct ev as [c i net|c now|props|]; simpl.
  - apply world_inv_alter; [| |by intros; apply arrive_inv|done].
    + intros cyc. apply (arrive_frame rt i net cyc).
    + intros cyc. apply (arrive_frame rt i net cyc).
  - destruct (cycles w !! c) as [cyc|]; [|done].
    destruct (resumed cyc); [done|].
    destruct (all_promise cyc) as [outcome|]; [|done].
    destruct (continuation_frame now cyc outcome
                (with_cycles (alter mark_resumed c (cycles w)) w)) as (Hc & Hm & Hr).
    eapply world_inv_fields; [done|done|by rewrite Hr|].
    apply world_inv_alter; [done|done|apply mark_resumed_inv|done].
  - destruct (mounted w) eqn:Hm; [|done].
    destruct (winv_key _ Hw Hm) as (cyc & Hlast & Hkey). rewrite Hlast.
    destruct Hw as [Hcycles Hstale Hunmounted _].
    destruct (String.eqb_spec (c_cacheKey cyc) (cacheKey props)) as [Heq|Hne].
    + split; simpl; [done|done|done|]. intros _. by exists cyc.
    + split; simpl.
      * apply Forall_app. split; [|apply Forall_singleton, start_cycle_inv].
        apply Forall_alter; [done|]. intros ? _. apply cleanup_inv.
      * intros c cyc' Hc Hlt. rewrite length_app, length_alter in Hlt. simpl in Hlt.
        rewrite lookup_app_l in Hc by (rewrite length_alter; lia).
        by apply (Forall_lookup_1 _ _ _ _ (cleanup_cancels_all _ Hstale) Hc).
      * done.
      * intros _. rewrite last_snoc. by eexists.
  - destruct (mounted w) eqn:Hm; [|done].
    destruct Hw as [Hcycles Hstale Hunmounted _].
    pose proof (cleanup_cancels_all _ Hstale) as Hall.
    split; simpl.
    + apply Forall_alter; [done|]. intros ? _. apply cleanup_inv.
    + intros c cyc Hc _. by apply (Forall_lookup_1 _ _ _ _ Hall Hc).
    + done.
    + done.
Qed.

Lemma reachable_inv w : reachable rt w → world_inv w.
Proof.
  induction 1 as [now props st w Hmount|ev w _ IH].
  - by eapply mount_world_inv.
  - by apply step_world_inv.
Qed.

Lemma reachable_run evs w : reachable rt w → reachable rt (run rt evs w).
Proof.
  revert w. induction evs as [|ev evs IH]; intros w Hw; [done|].
  apply IH. by constructor.
Qed.

End Reachability.

(** ** What a failed or a cancelled cycle leaves alone *)

Section Frame.
Context (rt : Runtime).

(** Only the continuation of a cycle writes to the store, and only that
    of a cycle that was not cancelled and whose [Promise.all] fulfilled. *)
Lemma store_changes_on_success ev w :
  localStorage (step rt ev w) ≠ localStorage w →
  ∃ c now cyc results,
    ev = Resume c now ∧ cycles w !! c = Some cyc
    ∧ resumed cyc = false ∧ cancelled cyc = false
    ∧ all_promise cyc = Some (Ok results).
Proof.
  destruct ev as [c i net|c now|props|]; simpl.
  - done.
  - destruct (cycles w !! c) as [cyc|] eqn:Hcyc; [|done].
    destruct (resumed cyc) eqn:Hres; [done|].
    destruct (all_promise cyc) as [[results|e]|] eqn:Hall; [| |done].
    + unfold continuation. destruct (cancelled cyc) eqn:Hflag; simpl; [done|].
      intros _. by exists c, now, cyc, results.
    + unfold continuation. by destruct (cancelled cyc).
  - destruct (mounted w); [|done]. destruct (last (cycles w)) as [cyc|]; [|done].
    by destruct (String.eqb (c_cacheKey cyc) (cacheKey props)).
  - by destruct (mounted w).
Qed.

(** A [Promise.all] that fulfilled has every one of its promises
    fulfilled. *)
Lemma fulfilled_all_fulfilled cyc results :
  cycle_inv cyc → all_promise cyc = Some (Ok results) →
  Forall (λ p, fulfilled p = true) (promises cyc).
Proof.
  intros Hinv Hall. pose proof (inv_all _ Hinv) as Hstate. rewrite Hall in Hstate.
  destruct Hstate as [_ H0]. rewrite (inv_remaining _ Hinv) in H0.
  apply Forall_lookup. intros i p Hp. by eapply unfulfilled_zero.
Qed.

End Frame.

(** C10.  When a fetch cycle that was not cancelled fails, its
    continuation changes the [error] and the [status] and nothing else:
    [items] keeps the value it had and no cache write happens, so the store
    is as it was.  The store changes only when a cycle that was not
    cancelled continues after every one of its promises fulfilled. *)
Theorem C10_failed_cycle_keeps_items_and_cache (rt : Runtime) (w : World)
    (c : nat) (cyc : Cycle) (e : JSError) (now : Z) :
  cycles w !! c = Some cyc →
  resumed cyc = false →
  cancelled cyc = false →
  all_promise cyc = Some (Throw e) →
  let w' := step rt (Resume c now) w in
  items w' = items w
  ∧ localStorage w' = localStorage w
  ∧ repos w' = repos w
  ∧ mounted w' = mounted w
  ∧ status w' = st_error
  ∧ error w' = VStr (error_text e)
  ∧ ∀ ev w1,
      reachable rt w1 →
      localStorage (step rt ev w1) ≠ localStorage w1 →
      ∃ c1 now1 cyc1 results,
        ev = Resume c1 now1 ∧ cycles w1 !! c1 = Some cyc1
        ∧ cancelled cyc1 = false
        ∧ all_promise cyc1 = Some (Ok results)
        ∧ Forall (λ p, fulfilled p = true) (promises cyc1).
Proof.
  intros Hcyc Hres Hflag Hall w'. subst w'. simpl.
  rewrite Hcyc, Hres, Hall. unfold continuation. rewrite Hflag. simpl.
  repeat split.
  intros ev w1 Hreach Hchange.
  destruct (store_changes_on_success rt ev w1 Hchange)
    as (c1 & now1 & cyc1 & results & -> & Hc1 & _ & Hflag1 & Hall1).
  exists c1, now1, cyc1, results. repeat split; try done.
  apply (fulfilled_all_fulfilled cyc1 results); [|done].
  apply (Forall_lookup_1 _ _ _ _ (winv_cycles _ (reachable_inv rt w1 Hreach)) Hc1).
Qed.

Lemma C10_failed_cycle_keeps_items_and_cache_witness :
  let w := run Demo.runtime (arrivals 0 Demo.second_404 [0; 1]) Demo.two_mounted in
  let w' := step Demo.runtime (Resume 0 1700000000500) w in
  items w' = items w ∧ localStorage w' = localStorage w.
Proof.
  pose proof (C10_failed_cycle_keeps_items_and_cache Demo.runtime
                (run Demo.runtime (arrivals 0 Demo.second_404 [0; 1]) Demo.two_mounted)
                0
                (arrive_all Demo.runtime Demo.second_404 [0; 1]
                   (start_cycle Demo.two_repos (cacheKey Demo.two_repos)))
                (Error "c/d 404") 1700000000500
                eq_refl eq_refl eq_refl eq_refl) as (Hitems & Hstore & _).
  exact (conj Hitems Hstore).
Defined.

(** ** The cache key *)

Lemma comma_free_no_comma a b y :
  comma_free a = true → a ≠ b +:+ "," +:+ y.
Proof.
  revert a. induction b as [|ch b IH]; intros a Ha Heq.
  - subst a. simpl in Ha. done.
  - destruct a as [|ch' a]; [done|]. simpl in Ha, Heq.
    apply andb_prop in Ha as [_ Ha]. injection Heq as _ Heq. by apply (IH a).
Qed.

Lemma comma_split a b x y :
  comma_free a = true → comma_free b = true →
  a +:+ "," +:+ x = b +:+ "," +:+ y → a = b ∧ x = y.
Proof.
  revert b. induction a as [|ch a IH]; intros [|ch' b] Ha Hb Heq; simpl in *.
  - by simplify_eq.
  - simplify_eq; done.
  - simplify_eq; done.
  - apply andb_prop in Ha as [_ Ha]. apply andb_prop in Hb as [_ Hb].
    injection Heq as -> Heq. destruct (IH b Ha Hb Heq) as [-> ->]. done.
Qed.

Lemma join_cons x y ys :
  join_with "," (x :: y :: ys) = x +:+ "," +:+ join_with "," (y :: ys).
Proof. done. Qed.

Lemma join_identifiers_nonempty x xs :
  identifier x → join_with "," (x :: xs) ≠ "".
Proof.
  intros [Hne _]. destruct xs as [|y ys]; [done|].
  rewrite join_cons. by destruct x.
Qed.

(** On identifiers the comma-joined list determines the list. *)
Lemma join_identifiers_inj l l' :
  Forall identifier l → Forall identifier l' →
  join_with "," l = join_with "," l' → l = l'.
Proof.
  intros Hl. revert l'. induction Hl as [|x xs Hx Hxs IH]; intros l' Hl' Heq.
  - destruct Hl' as [|y ys Hy _]; [done|].
    exfalso. by apply (join_identifiers_nonempty y ys Hy).
  - destruct Hl' as [|y ys Hy Hys].
    { exfalso. by apply (join_identifiers_nonempty x xs Hx). }
    destruct xs as [|x' xs], ys as [|y' ys].
    + simpl in Heq. by subst.
    + exfalso. change (x = y +:+ "," +:+ join_with "," (y' :: ys)) in Heq.
      by apply (comma_free_no_comma x y (join_with "," (y' :: ys)) (proj2 Hx)).
    + exfalso. change (x +:+ "," +:+ join_with "," (x' :: xs) = y) in Heq.
      symmetry in Heq.
      by apply (comma_free_no_comma y x (join_with "," (x' :: xs)) (proj2 Hy)).
    + rewrite !join_cons in Heq.
      destruct (comma_split _ _ _ _ (proj2 Hx) (proj2 Hy) Heq) as [-> Hrest].
      f_equal. by apply IH.
Qed.

Lemma cacheKey_inj l l' :
  Forall identifier l → Forall identifier l' →
  cacheKey l = cacheKey l' → l = l'.
Proof.
  intros Hl Hl' Heq. apply join_identifiers_inj; [done|done|].
  unfold cacheKey in Heq. simpl in Heq. by simplify_eq.
Qed.



(** ** Cancellation *)

Section Cancellation.
Context (rt : Runtime).

Lemma lookup_alter_cancelled (f : Cycle → Cycle) c0 (l : list Cycle) c cyc :
  (∀ x, cancelled x = true → cancelled (f x) = true) →
  l !! c = Some cyc → cancelled cyc = true →
  ∃ cyc', alter f c0 l !! c = Some cyc' ∧ cancelled cyc' = true.
Proof.
  intros Hf Hc Hflag. rewrite list_lookup_alter. case_decide.
  - subst c0. rewrite Hc. simpl. exists (f cyc). split; [done|by apply Hf].
  - by exists cyc.
Qed.

(** A flag that is set stays set, and the cycle keeps its place. *)
Lemma cancelled_stays_step ev w c cyc :
  cycles w !! c = Some cyc → cancelled cyc = true →
  ∃ cyc', cycles (step rt ev w) !! c = Some cyc' ∧ cancelled cyc' = true.
Proof.
  intros Hc Hflag. destruct ev as [c0 i net|c0 now|props|]; simpl.
  - apply (lookup_alter_cancelled _ _ _ _ cyc); [|done|done].
    intros x Hx. by rewrite (proj1 (proj2 (proj2 (arrive_frame rt i net x)))).
  - destruct (cycles w !! c0) as [cyc0|]; [|by exists cyc].
    destruct (resumed cyc0); [by exists cyc|].
    destruct (all_promise cyc0) as [outcome|]; [|by exists cyc].
    rewrite (proj1 (continuation_frame rt now cyc0 outcome _)). simpl.
    by apply (lookup_alter_cancelled _ _ _ _ cyc).
  - destruct (mounted w); [|by exists cyc].
    destruct (last (cycles w)) as [cyc0|]; [|by exists cyc].
    destruct (String.eqb (c_cacheKey cyc0) (cacheKey props)); [by exists cyc|].
    simpl. rewrite lookup_app_l
      by (rewrite length_alter; by eapply lookup_lt_Some).
    by apply (lookup_alter_cancelled _ _ _ _ cyc).
  - destruct (mounted w); [|by exists cyc]. simpl.
    by apply (lookup_alter_cancelled _ _ _ _ cyc).
Qed.

Lemma cancelled_stays_run evs w c cyc :
  cycles w !! c = Some cyc → cancelled cyc = true →
  ∃ cyc', cycles (run rt evs w) !! c = Some cyc' ∧ cancelled cyc' = true.
Proof.
  revert w cyc. induction evs as [|ev evs IH]; intros w cyc Hc Hflag.
  - by exists cyc.
  - destruct (cancelled_stays_step ev w c cyc Hc Hflag) as (cyc' & Hc' & Hflag').
    by apply (IH (step rt ev w) cyc').
Qed.

(** Tearing the effect down sets the flag of every cycle started so far. *)
Lemma tears_down_cancels ev w c cyc :
  world_inv w → tears_down w ev → cycles w !! c = Some cyc →
  ∃ cyc', cycles (step rt ev w) !! c = Some cyc' ∧ cancelled cyc' = true.
Proof.
  intros Hw Htear Hc.
  assert (∃ cyc', alter cleanup (length (cycles w) - 1) (cycles w) !! c = Some cyc'
                  ∧ cancelled cyc' = true) as Hcleaned.
  { pose proof (cleanup_cancels_all _ (winv_stale _ Hw)) as Hall.
    destruct (lookup_lt_is_Some_2 (alter cleanup (length (cycles w) - 1) (cycles w)) c)
      as [cyc' Hcyc'].
    { rewrite length_alter. by eapply lookup_lt_Some. }
    exists cyc'. split; [done|]. by apply (Forall_lookup_1 _ _ _ _ Hall Hcyc'). }
  assert (mounted w = false → cancelled cyc = true) as Hunmounted.
  { intros Hm. by apply (Forall_lookup_1 _ _ _ _ (winv_unmounted _ Hw Hm) Hc). }
  assert (∀ props, cacheKey props ≠ cacheKey (repos w) →
            ∃ cyc', cycles (step rt (Rerender props) w) !! c = Some cyc'
                    ∧ cancelled cyc' = true) as Hrerender.
  { intros props Hkey. simpl. destruct (mounted w) eqn:Hm; [|exists cyc; auto].
    destruct (winv_key _ Hw Hm) as (cyc0 & -> & Hkey0).
    destruct (String.eqb_spec (c_cacheKey cyc0) (cacheKey props)) as [Heq|_].
    { congruence. }
    simpl. rewrite lookup_app_l
      by (rewrite length_alter; by eapply lookup_lt_Some).
    done. }
  destruct Htear as [|props Hkey|props Hprops Hrepos Hne].
  - simpl. destruct (mounted w) eqn:Hm; [done|exists cyc; auto].
  - by apply Hrerender.
  - apply Hrerender. intros Hkey. by apply Hne, cacheKey_inj.
Qed.

(** The continuation of a cancelled cycle changes neither the state nor
    the store. *)
Lemma resume_cancelled w c cyc now :
  cycles w !! c = Some cyc → cancelled cyc = true →
  let w' := step rt (Resume c now) w in
  items w' = items w ∧ status w' = status w ∧ error w' = error w
  ∧ localStorage w' = localStorage w.
Proof.
  intros Hc Hflag. simpl. rewrite Hc.
  destruct (resumed cyc); [done|].
  destruct (all_promise cyc) as [outcome|]; [|done].
  unfold continuation. rewrite Hflag. by destruct outcome.
Qed.

End Cancellation.

(** C5.  For every fetch cycle, once the component is torn down or the
    list of identifiers changes (to one with another key, as any other list
    of [owner/name] identifiers has) before the cycle settles, the flag of
    the cycle is set and stays set through whatever happens next, and the
    settlement of the cycle, success or failure, updates no state and
    writes no cache entry: [items], [status], [error] and the store are
    after the late continuation what they were before it, and the late
    answers themselves change none of them. *)
Theorem C5_late_results_are_discarded (rt : Runtime) (w : World) (c : nat)
    (cyc : Cycle) (ev : Event) (evs : list Event) (now : Z) :
  reachable rt w →
  cycles w !! c = Some cyc →
  tears_down w ev →
  let w1 := run rt evs (step rt ev w) in
  let w2 := step rt (Resume c now) w1 in
  (∃ cyc1, cycles w1 !! c = Some cyc1 ∧ cancelled cyc1 = true)
  ∧ items w2 = items w1 ∧ status w2 = status w1 ∧ error w2 = error w1
  ∧ localStorage w2 = localStorage w1
  ∧ ∀ i net, let w3 := step rt (Arrive c i net) w1 in
             items w3 = items w1 ∧ status w3 = status w1 ∧ error w3 = error w1
             ∧ localStorage w3 = localStorage w1.
Proof.
  intros Hreach Hc Htear w1 w2.
  destruct (tears_down_cancels rt ev w c cyc (reachable_inv rt w Hreach) Htear Hc)
    as (cyc0 & Hc0 & Hflag0).
  destruct (cancelled_stays_run rt evs _ c cyc0 Hc0 Hflag0) as (cyc1 & Hc1 & Hflag1).
  fold w1 in Hc1.
  split; [by exists cyc1|].
  destruct (resume_cancelled rt w1 c cyc1 now Hc1 Hflag1) as (? & ? & ? & ?).
  by repeat split.
Qed.

Lemma C5_late_results_are_discarded_witness :
  let w1 := run Demo.runtime (arrivals 0 Demo.both_ok [1; 0])
                (step Demo.runtime Unmount Demo.two_mounted) in
  let w2 := step Demo.runtime (Resume 0 1700000000500) w1 in
  items w2 = items w1 ∧ localStorage w2 = localStorage w1.
Proof.
  assert (reachable Demo.runtime Demo.two_mounted) as Hreach.
  { apply (reach_mount Demo.runtime 1700000000000 Demo.two_repos (Demo.store [])).
    vm_compute; reflexivity. }
  pose proof (C5_late_results_are_discarded Demo.runtime Demo.two_mounted 0
                (start_cycle Demo.two_repos (cacheKey Demo.two_repos)) Unmount
                (arrivals 0 Demo.both_ok [1; 0]) 1700000000500
                Hreach eq_refl (tear_unmount _))
    as (_ & Hitems & _ & _ & Hstore & _).
  exact (conj Hitems Hstore).
Defined.

(** * Further laws of the code *)

Import Laws.

(** ** The cache, read and written *)

Lemma write_then_read (rt : Runtime) t now key data st text :
  JSON_stringify rt (VObj [("at", VNum t); ("data", data)]) = Ok text →
  text ≠ "" →
  JSON_parse rt text = Ok (VObj [("at", VNum t); ("data", data)]) →
  accessible st = true →
  accepts st key text = true →
  t ≠ 0%Z →
  readCache rt now key (writeCache rt t key data st).1
  = ((writeCache rt t key data st).1,
     Ok (if (now - t <=? CACHE_TTL_MS)%Z then data else VNull)).
Proof.
  intros Htext Hne Hparse Hacc Haccepts Ht.
  rewrite writeCache_eq, Htext, Hacc, Haccepts. simpl.
  rewrite readCache_eq. simpl. rewrite ?Hacc, lookup_insert_eq, Hparse.
  destruct (String.eqb_spec text "") as [?|_]; [done|]. simpl.
  destruct (Z.eqb_spec t 0) as [?|_]; [done|]. simpl.
  by destruct (Z.ltb_spec CACHE_TTL_MS (now - t)),
              (Z.leb_spec (now - t) CACHE_TTL_MS); (done || lia).
Qed.

(** X1.  What [writeCache] stored at time [t] under a key, [readCache]
    returns from that key for as long as the entry is no older than the
    time-to-live, and [null] afterwards: given that the store took the
    write and that the engine parses what it printed. *)
Theorem X1_cache_round_trip (rt : Runtime) (t now : Z) (key : string)
    (data : value) (st : Storage) (text : string) :
  JSON_stringify rt (VObj [("at", VNum t); ("data", data)]) = Ok text →
  text ≠ "" →
  JSON_parse rt text = Ok (VObj [("at", VNum t); ("data", data)]) →
  accessible st = true →
  accepts st key text = true →
  t ≠ 0%Z →
  let st' := (writeCache rt t key data st).1 in
  readCache rt now key st'
  = (st', Ok (if (now - t <=? CACHE_TTL_MS)%Z then data else VNull)).
Proof. intros. by apply (write_then_read rt t now key data st text). Qed.

Lemma X1_cache_round_trip_witness :
  let st' := (writeCache Demo.runtime 1700000000000 "gh:repos:" (VArr []) (Demo.store [])).1 in
  readCache Demo.runtime 1700000600000 "gh:repos:" st' = (st', Ok (VArr []))
  ∧ readCache Demo.runtime 1700000600001 "gh:repos:" st' = (st', Ok VNull).
Proof.
  split.
  - exact (X1_cache_round_trip Demo.runtime 1700000000000 1700000600000 "gh:repos:"
             (VArr []) (Demo.store []) _ eq_refl ltac:(discriminate) eq_refl
             eq_refl eq_refl ltac:(discriminate)).
  - exact (X1_cache_round_trip Demo.runtime 1700000000000 1700000600001 "gh:repos:"
             (VArr []) (Demo.store []) _ eq_refl ltac:(discriminate) eq_refl
             eq_refl eq_refl ltac:(discriminate)).
Defined.

(** X2.  [writeCache] touches the entry of its own key and no other: what
    [readCache] returns for any other key is the same before and after the
    write, whether the write went through or not. *)
Theorem X2_writeCache_leaves_other_keys (rt : Runtime) (t now : Z)
    (key key' : string) (data : value) (st : Storage) :
  key' ≠ key →
  let st' := (writeCache rt t key data st).1 in
  readCache rt now key' st' = (st', (readCache rt now key' st).2)
  ∧ entries st' !! key' = entries st !! key'
  ∧ accessible st' = accessible st.
Proof.
  intros Hne st'. subst st'. rewrite writeCache_eq, !readCache_eq. simpl.
  destruct (JSON_stringify rt _) as [text|]; [|done].
  destruct (accessible st && accepts st key text); [|done]. simpl.
  by rewrite lookup_insert_ne.
Qed.

Lemma X2_writeCache_leaves_other_keys_witness :
  let st := Demo.store [("gh:repos:foo/bar",
                         Demo.stringify (VObj [("at", VNum 1700000000000);
                                               ("data", VArr [])]))] in
  let st' := (writeCache Demo.runtime 1700000000500 "gh:repos:a/b" (VArr []) st).1 in
  entries st' !! "gh:repos:foo/bar" = entries st !! "gh:repos:foo/bar".
Proof.
  exact (proj1 (proj2 (X2_writeCache_leaves_other_keys Demo.runtime 1700000000500
                         1700000000600 "gh:repos:a/b" "gh:repos:foo/bar" (VArr []) _
                         ltac:(discriminate)))).
Defined.

(** X3.  The last write wins: a write that goes through replaces whatever
    an earlier write left under the key, so that the store is as if the
    earlier write had never happened. *)
Theorem X3_last_write_wins (rt : Runtime) (t1 t2 : Z) (key : string)
    (data1 data2 : value) (st : Storage) (text : string) :
  JSON_stringify rt (VObj [("at", VNum t2); ("data", data2)]) = Ok text →
  accessible st = true →
  accepts st key text = true →
  (writeCache rt t2 key data2 (writeCache rt t1 key data1 st).1).1
  = (writeCache rt t2 key data2 st).1.
Proof.
  intros Htext Hacc Haccepts. rewrite !writeCache_eq, Htext. simpl.
  rewrite Hacc, Haccepts. simpl.
  destruct (JSON_stringify rt (VObj [("at", VNum t1); ("data", data1)])) as [text1|];
    simpl; [|by rewrite Hacc, Haccepts].
  destruct (accepts st key text1); simpl; rewrite ?Hacc, ?Haccepts; simpl; [|done].
  by rewrite insert_insert_eq.
Qed.

Lemma X3_last_write_wins_witness :
  (writeCache Demo.runtime 1700000000900 "gh:repos:" (VArr [])
     (writeCache Demo.runtime 1700000000500 "gh:repos:" (VArr [VNull]) (Demo.store [])).1).1
  = (writeCache Demo.runtime 1700000000900 "gh:repos:" (VArr []) (Demo.store [])).1.
Proof.
  exact (X3_last_write_wins Demo.runtime 1700000000500 1700000000900 "gh:repos:"
           (VArr [VNull]) (VArr []) (Demo.store []) _ eq_refl eq_refl eq_refl).
Defined.

(** X4.  Whatever the store holds, [readCache] never throws and never
    changes the store (an entry that is stale or corrupt stays where it
    is), and what it returns is [null] or the [data] property of the parsed
    entry. *)
Theorem X4_readCache_returns_null_or_data (rt : Runtime) (now : Z) (key : string)
    (st : Storage) :
  ∃ v, readCache rt now key st = (st, Ok v)
       ∧ (v = VNull
          ∨ ∃ raw parsed, entries st !! key = Some raw
                          ∧ JSON_parse rt raw = Ok parsed
                          ∧ GetV rt parsed "data" = Ok v).
Proof.
  rewrite readCache_eq. eexists. split; [reflexivity|].
  destruct (accessible st); [|by left].
  destruct (entries st !! key) as [raw|]; [|by left].
  destruct (String.eqb raw ""); [by left|].
  destruct (JSON_parse rt raw) as [parsed|] eqn:Hparse; [|by left].
  destruct (GetV rt parsed "at") as [stamp|]; [|by left].
  destruct (GetV rt parsed "data") as [data|] eqn:Hdata; [|by left].
  destruct (negb (truthy stamp)); [by left|].
  destruct (js_sub rt (VNum now) stamp) as [age|]; [|by left].
  destruct (num_gt age _); [by left|].
  right. by exists raw, parsed.
Qed.

(** X5.  For an entry with a numeric time stamp [t], at any time [now]:
    [readCache] returns the [data] of the entry ([undefined] when the entry
    has none) when [t] is not 0 and [now - t] is at most the time-to-live,
    the bound included and a stamp in the future too, and [null]
    otherwise; a stamp of 0 is read as no stamp.  The first render starts
    [ready] exactly when what was returned is truthy: an empty list is, a
    missing or empty [data] is not. *)
Theorem X5_readCache_numeric_stamp (rt : Runtime) (now : Z) (props : list string)
    (st : Storage) (raw : string) (fields : list (string * value)) (t : Z) :
  accessible st = true →
  entries st !! cacheKey props = Some raw →
  raw ≠ "" →
  JSON_parse rt raw = Ok (VObj fields) →
  lookup_field "at" fields = Some (VNum t) →
  let cached :=
    if negb (t =? 0)%Z && (now - t <=? CACHE_TTL_MS)%Z
    then default VUndefined (lookup_field "data" fields) else VNull in
  readCache rt now (cacheKey props) st = (st, Ok cached)
  ∧ first_render rt now props st
    = Ok {| repos := props; items := cached;
            status := if truthy cached then st_ready else st_loading;
            error := VNull; mounted := false; cycles := [];
            localStorage := st |}.
Proof.
  intros Hacc Hraw Hne Hparse Hat cached.
  assert (readCache rt now (cacheKey props) st = (st, Ok cached)) as Hread.
  { rewrite readCache_eq, Hacc, Hraw, Hparse.
    destruct (String.eqb_spec raw "") as [?|_]; [done|]. simpl.
    rewrite Hat. simpl. subst cached.
    destruct (Z.eqb_spec t 0) as [?|_]; [done|]. simpl.
    by destruct (Z.ltb_spec CACHE_TTL_MS (now - t)),
                (Z.leb_spec (now - t) CACHE_TTL_MS); (done || lia). }
  split; [done|]. unfold first_render. by rewrite Hread.
Qed.

Lemma X5_readCache_numeric_stamp_witness :
  let st := Demo.store [("gh:repos:",
                         Demo.stringify (VObj [("at", VNum 1700000000000);
                                               ("data", VArr [])]))] in
  readCache Demo.runtime 1699999999999 (cacheKey []) st = (st, Ok (VArr [])).
Proof.
  exact (proj1 (X5_readCache_numeric_stamp Demo.runtime 1699999999999 []
                  (Demo.store [("gh:repos:",
                                Demo.stringify (VObj [("at", VNum 1700000000000);
                                                      ("data", VArr [])]))])
                  (Demo.stringify (VObj [("at", VNum 1700000000000); ("data", VArr [])]))
                  [("at", VNum 1700000000000); ("data", VArr [])]
                  1700000000000 eq_refl eq_refl ltac:(discriminate) eq_refl eq_refl)).
Defined.

(** ** Requests, summaries and cards *)

(** X6.  The promise of an identifier fulfils exactly when the network
    answered with a success status and a body that decodes to something
    other than [null] or [undefined]: nothing else is checked, and a body
    that lacks the fields still makes a summary. *)
Theorem X6_request_fulfils_iff (rt : Runtime) (r : string) (net : FetchOutcome) :
  (∃ s, repoPromise rt r net = Ok s)
  ↔ ∃ res j, net = Ok res ∧ res_ok res = true ∧ res_json res = Ok j
             ∧ j ≠ VNull ∧ j ≠ VUndefined.
Proof.
  split.
  - intros [s Hs].
    destruct (repoPromise_Ok rt r net s Hs) as (j & Hj & Hnull & Hundef & _).
    unfold fetchRepo, mbind, result_bind in Hj.
    destruct net as [res|]; [|done].
    destruct (res_ok res) eqn:Hok; simpl in Hj; [|done].
    by exists res, j.
  - intros (res & j & -> & Hok & Hjson & Hnull & Hundef).
    exists (RepoSummary rt r j). apply repoPromise_fulfils; [|done|done].
    unfold fetchRepo. simpl. by rewrite Hok.
Qed.

(** X7.  The card of a fulfilled request, once built, shows what the
    response carried: its full name, turned into a string, as key, its
    address as link, its name, its language and its description when they
    are truthy and not otherwise, the compact form of its three counts, and
    the local date of its last push.  The card is built, and React takes
    it in, whenever the nine fields of the response are primitives. *)
Theorem X7_card_shows_the_response (rt : Runtime) (r : string)
    (net : FetchOutcome) (s : value) :
  repoPromise rt r net = Ok s →
  ∃ j full_name language description stars forks issues pushed_at,
    fetchRepo rt r net = Ok j
    ∧ GetV rt j "full_name" = Ok full_name
    ∧ GetV rt j "language" = Ok language
    ∧ GetV rt j "description" = Ok description
    ∧ GetV rt j "stargazers_count" = Ok stars
    ∧ GetV rt j "forks_count" = Ok forks
    ∧ GetV rt j "open_issues_count" = Ok issues
    ∧ GetV rt j "pushed_at" = Ok pushed_at
    ∧ (∀ c, card rt s = Ok c →
         React.element_key rt full_name = Ok (card_key c)
         ∧ GetV rt j "html_url" = Ok (card_href c)
         ∧ GetV rt j "name" = Ok (card_name c)
         ∧ card_language c = (if truthy language then Some language else None)
         ∧ card_description c
           = (if truthy description then Some description else None)
         ∧ compact rt stars = Ok (card_stars c)
         ∧ compact rt forks = Ok (card_forks c)
         ∧ compact rt issues = Ok (card_issues c)
         ∧ ∃ date, ToPrimitive rt hint_number pushed_at = Ok date
                   ∧ card_updated c = toLocaleDateString rt date)
    ∧ (plain_body rt j → ∃ c, card rt s = Ok c ∧ reconcile_card rt c = Ok tt).
Proof.
  intros Hs.
  destruct (repoPromise_Ok rt r net s Hs) as (j & Hj & Hnull & Hundef & ->).
  exists j, (field_of rt j "full_name"), (field_of rt j "language"),
    (field_of rt j "description"), (field_of rt j "stargazers_count"),
    (field_of rt j "forks_count"), (field_of rt j "open_issues_count"),
    (field_of rt j "pushed_at").
  rewrite !(GetV_field rt j _ Hnull Hundef).
  repeat (split; [done|]). split.
  - intros c Hc.
    destruct (card_shows rt r j c Hc)
      as (Hhref & Hname & Hlang & Hdesc & Hstars & Hforks & Hissues & Hdate & Hkey).
    rewrite Hhref, Hname. by repeat split.
  - apply card_plain.
Qed.

Lemma X7_card_shows_the_response_witness :
  ∃ c, card Demo.runtime
         (VObj [("id", VStr "a/b"); ("name", VStr "b"); ("full_name", VStr "a/b");
                ("html_url", VStr "https://github.com/a/b"); ("description", VNull);
                ("stargazers_count", VNum 1); ("forks_count", VNum 56);
                ("open_issues_count", VNum 3);
                ("pushed_at", VStr "2024-01-01T00:00:00Z"); ("language", VStr "Go")])
       = Ok c
       ∧ card_key c = Some "a/b" ∧ card_stars c = "1".
Proof.
  destruct (X7_card_shows_the_response Demo.runtime "a/b"
              (Demo.ok_response (Demo.body "b" "a/b" 1)) _ eq_refl)
    as (j & f & l & d & n1 & n2 & n3 & p & Hj & Hf & _ & _ & Hn1 & _ & _ & _ & Hshows & Hplain).
  destruct Hplain as (c & Hc & _).
  { injection Hj as <-. split; [discriminate|]. split; [discriminate|].
    repeat constructor. }
  exists c. split; [exact Hc|].
  destruct (Hshows c Hc) as (Hkey & _ & _ & _ & _ & Hstars & _).
  injection Hj as <-. injection Hf as <-. injection Hn1 as <-.
  split; [by injection Hkey|by injection Hstars].
Defined.

(** ** The cache key *)

(** X8.  Two lists of identifiers share a cache key only when they are the
    same list: no list is served the entry of another.  (Strings that are
    not identifiers can collide: one with a comma in it is joined to the
    same key as its two halves.) *)
Theorem X8_cache_key_determines_identifiers (l l' : list string) :
  Forall identifier l → Forall identifier l' →
  cacheKey l = cacheKey l' →
  l = l'.
Proof. apply cacheKey_inj. Qed.

Lemma X8_cache_key_determines_identifiers_witness :
  ["foo/bar"; "a/b"] = ["foo/bar"; "a/b"].
Proof.
  refine (X8_cache_key_determines_identifiers ["foo/bar"; "a/b"]
            ["foo/bar"; "a/b"] _ _ eq_refl);
    repeat constructor; discriminate.
Defined.

(** ** The counter, counted *)

Lemma Counter_clicks k n :
  Counter.run (replicate k Counter.Click) n = (n + Z.of_nat k)%Z.
Proof.
  revert n. induction k as [|k IH]; intros n; simpl.
  - unfold Counter.run. simpl. lia.
  - unfold Counter.run in *. simpl. rewrite IH. unfold Counter.onClick. lia.
Qed.

(** X9.  The counter shows the number of activations since it was last
    mounted: after any history, a remount followed by [k] activations
    leaves the count at [k], and [k] activations of a fresh counter show
    [Count: k]. *)
Theorem X9_counter_counts_activations :
  (∀ evs n k,
     Counter.run (evs ++ Counter.Remount :: replicate k Counter.Click) n = Z.of_nat k)
  ∧ (∀ k, Counter.render (Counter.run (replicate k Counter.Click) Counter.initial)
          = "Count: " +:+ decimal (Z.of_nat k))
  ∧ (∀ k n, Counter.run (replicate k Counter.Click) n = (n + Z.of_nat k)%Z).
Proof.
  split; [|split].
  - intros evs n k. unfold Counter.run. rewrite foldl_app. simpl.
    fold (Counter.run (replicate k Counter.Click) Counter.initial).
    rewrite Counter_clicks. unfold Counter.initial. lia.
  - intros k. rewrite Counter_clicks. unfold Counter.initial. by rewrite Z.add_0_l.
  - intros k n. apply Counter_clicks.
Qed.

(** ** The mounted component *)

Section Mounted.
Context (rt : Runtime).





End Mounted.



Section FirstRender.
Context (rt : Runtime).

Lemma compact_throws n e : compact rt n = Throw e → e_name e = "TypeError".
Proof.
  unfold compact, try_catch, mbind, result_bind.
  destruct (Intl_NumberFormat_compact rt) as [format|]; [|apply ToString_throws].
  destruct (format n); [done|apply ToString_throws].
Qed.

Lemma element_key_throws v e :
  React.element_key rt v = Throw e → e_name e = "TypeError".
Proof.
  unfold React.element_key, concat_string, mbind, result_bind.
  destruct v; try done;
    (destruct (ToPrimitive rt hint_number _) eqn:Hp; [done|];
     intros [= <-]; by eapply ToPrimitive_throws).
Qed.

(** Whatever [card] throws is a [TypeError]. *)
Lemma card_throws_TypeError it e : card rt it = Throw e → e_name e = "TypeError".
Proof.
  unfold card, mbind, result_bind.
  repeat match goal with
         | |- context [GetV rt it ?k] =>
             let H := fresh "H" in
             destruct (GetV rt it k) eqn:H;
             [|intros [= <-]; by eapply GetV_throws]
         | |- context [compact rt ?n] =>
             let H := fresh "H" in
             destruct (compact rt n) eqn:H;
             [|intros [= <-]; by eapply compact_throws]
         | |- context [ToPrimitive rt hint_number ?v] =>
             let H := fresh "H" in
             destruct (ToPrimitive rt hint_number v) eqn:H;
             [|intros [= <-]; by eapply ToPrimitive_throws]
         | |- context [React.element_key rt ?v] =>
             let H := fresh "H" in
             destruct (React.element_key rt v) eqn:H;
             [|intros [= <-]; by eapply element_key_throws]
         end.
  done.
Qed.

Lemma cards_with_null its :
  VNull ∈ its → ∃ e, mapM (card rt) its = Throw e ∧ e_name e = "TypeError".
Proof.
  induction its as [|it its IH]; intros Hin.
  - by apply elem_of_nil in Hin.
  - simpl. destruct (card rt it) as [c|e] eqn:Hcard; simpl.
    + apply elem_of_cons in Hin as [<-|Hin].
      { unfold card in Hcard. simpl in Hcard. done. }
      destruct (IH Hin) as (e & -> & He). by exists e.
    + exists e. split; [done|]. by eapply card_throws_TypeError.
Qed.

End FirstRender.

(** X11.  A fresh cache entry whose data is truthy without being a list (a
    number, a text, an object), or is a list that holds a [null], makes the
    first call of the component throw a [TypeError]: the component does not
    mount and no request is issued. *)
Theorem X11_first_render_throws_on_malformed_data (rt : Runtime) (now : Z)
    (props : list string) (st : Storage) (raw : string)
    (fields : list (string * value)) (t : Z) (d : value) :
  accessible st = true →
  entries st !! cacheKey props = Some raw →
  raw ≠ "" →
  JSON_parse rt raw = Ok (VObj fields) →
  lookup_field "at" fields = Some (VNum t) →
  lookup_field "data" fields = Some d →
  t ≠ 0%Z →
  (now - t ≤ CACHE_TTL_MS)%Z →
  (truthy d = true ∧ ∀ its, d ≠ VArr its) ∨ (∃ its, d = VArr its ∧ VNull ∈ its) →
  ∃ e, mount rt now props st = Throw e ∧ e_name e = "TypeError".
Proof.
  intros Hacc Hraw Hne Hparse Hat Hdata Ht Hfresh Hbad.
  assert (readCache rt now (cacheKey props) st = (st, Ok d)) as Hread.
  { rewrite readCache_eq, Hacc, Hraw, Hparse.
    destruct (String.eqb_spec raw "") as [?|_]; [done|]. simpl.
    rewrite Hat, Hdata. simpl.
    destruct (Z.eqb_spec t 0) as [?|_]; [done|]. simpl.
    by destruct (Z.ltb_spec CACHE_TTL_MS (now - t)); [lia|]. }
  unfold mount, first_render. rewrite Hread. simpl.
  destruct Hbad as [[Htruthy Hnolist]|(its & -> & Hin)].
  - rewrite Htruthy. unfold render. simpl.
    destruct d; try done; try (by eexists). by destruct (Hnolist xs).
  - simpl. unfold render. simpl.
    destruct (cards_with_null rt its Hin) as (e & -> & He). by exists e.
Qed.

Lemma X11_first_render_throws_on_malformed_data_witness :
  ∃ e, mount runtime_more 1700000000500 ["foo/bar"]
         (Demo.store [("gh:repos:foo/bar",
                       Demo.stringify (VObj [("at", VNum 1700000000000);
                                             ("data", VNum 5)]))])
       = Throw e ∧ e_name e = "TypeError".
Proof.
  refine (X11_first_render_throws_on_malformed_data runtime_more 1700000000500
            ["foo/bar"]
            (Demo.store [("gh:repos:foo/bar",
                          Demo.stringify (VObj [("at", VNum 1700000000000);
                                                ("data", VNum 5)]))])
            (Demo.stringify (VObj [("at", VNum 1700000000000); ("data", VNum 5)]))
            [("at", VNum 1700000000000); ("data", VNum 5)] 1700000000000 (VNum 5)
            eq_refl _ _ _ eq_refl eq_refl _ _ _).
  - vm_compute; reflexivity.
  - discriminate.
  - vm_compute; reflexivity.
  - discriminate.
  - unfold CACHE_TTL_MS; lia.
  - left. split; [reflexivity|discriminate].
Defined.

(** X13.  Of all that can happen to a mounted component, only the
    continuation of its latest cycle changes what the user sees or what the
    store holds, and only while the component is mounted: an answer from
    the network, a new list of identifiers and an unmount change neither,
    nor does the continuation of any earlier cycle. *)
Theorem X13_only_the_latest_cycle_updates (rt : Runtime) (ev : Event) (w : World) :
  reachable rt w →
  observable (step rt ev w) ≠ observable w →
  ∃ c now cyc,
    ev = Resume c now
    ∧ cycles w !! c = Some cyc
    ∧ S c = length (cycles w)
    ∧ mounted w = true
    ∧ cancelled cyc = false
    ∧ resumed cyc = false
    ∧ is_Some (all_promise cyc).
Proof.
  intros Hreach Hchange. pose proof (reachable_inv rt w Hreach) as Hw.
  destruct ev as [c i net|c now|props|]; simpl in Hchange.
  - done.
  - destruct (cycles w !! c) as [cyc|] eqn:Hcyc; [|done].
    destruct (resumed cyc) eqn:Hres; [done|].
    destruct (all_promise cyc) as [outcome|] eqn:Hall; [|done].
    destruct (cancelled cyc) eqn:Hflag.
    { exfalso. apply Hchange. unfold continuation. rewrite Hflag. by destruct outcome. }
    exists c, now, cyc. split; [done|]. split; [done|].
    assert (c < length (cycles w)) by (by eapply lookup_lt_Some).
    split.
    { destruct (decide (S c < length (cycles w))) as [Hlt|?]; [|lia].
      pose proof (winv_stale _ Hw c cyc Hcyc Hlt). congruence. }
    split; [|by repeat split].
    destruct (mounted w) eqn:Hm; [done|].
    pose proof (Forall_lookup_1 _ _ _ _ (winv_unmounted _ Hw Hm) Hcyc). congruence.
  - exfalso. apply Hchange. destruct (mounted w); [|done].
    destruct (last (cycles w)) as [cyc|]; [|done].
    by destruct (String.eqb (c_cacheKey cyc) (cacheKey props)).
  - exfalso. apply Hchange. by destruct (mounted w).
Qed.

Lemma X13_only_the_latest_cycle_updates_witness :
  let w := run Demo.runtime (arrivals 0 Demo.second_404 [0; 1]) Demo.two_mounted in
  ∃ c now cyc, Resume 0 1700000000500 = Resume c now
               ∧ cycles w !! c = Some cyc
               ∧ S c = length (cycles w).
Proof.
  assert (reachable Demo.runtime
            (run Demo.runtime (arrivals 0 Demo.second_404 [0; 1]) Demo.two_mounted))
    as Hreach.
  { apply reachable_run.
    apply (reach_mount Demo.runtime 1700000000000 Demo.two_repos (Demo.store [])).
    vm_compute; reflexivity. }
  destruct (X13_only_the_latest_cycle_updates Demo.runtime (Resume 0 1700000000500) _
              Hreach) as (c & now & cyc & Hev & Hcyc & Hlast & _).
  { intros Heq. apply (f_equal (λ o, o.1.1.2)) in Heq. vm_compute in Heq. discriminate. }
  by exists c, now, cyc.
Defined.

(** X14.  Rendering a mounted component with a new list of identifiers
    resets nothing: items, status and error keep their values, so the view
    of the old list stays until a cycle settles.  When the new list has the
    key of the old one no request is issued and the running cycle goes on;
    when it has another key the cycles started so far are all cancelled and
    exactly one is started, with one request per new identifier. *)
Theorem X14_rerender_keeps_state_and_restarts_on_new_key (rt : Runtime)
    (w : World) (props : list string) :
  reachable rt w →
  mounted w = true →
  let w' := step rt (Rerender props) w in
  repos w' = props
  ∧ observable w' = observable w
  ∧ (cacheKey props = cacheKey (repos w) → cycles w' = cycles w)
  ∧ (cacheKey props ≠ cacheKey (repos w) →
       length (cycles w') = S (length (cycles w))
       ∧ last (cycles w') = Some (start_cycle props (cacheKey props))
       ∧ ∀ c cyc, cycles w' !! c = Some cyc → c < length (cycles w) →
                  cancelled cyc = true).
Proof.
  intros Hreach Hm w'. subst w'. pose proof (reachable_inv rt w Hreach) as Hw.
  destruct (winv_key _ Hw Hm) as (cyc0 & Hlast & Hkey).
  simpl. rewrite Hm, Hlast, Hkey.
  destruct (String.eqb_spec (cacheKey (repos w)) (cacheKey props)) as [Heq|Hne]; simpl.
  - split; [done|]. split; [done|]. split; [done|]. intros Hne. by destruct Hne.
  - split; [done|]. split; [done|]. split; [intros Heq; by destruct Hne|].
    intros _. split; [|split].
    + rewrite length_app, length_alter. simpl. lia.
    + by rewrite last_snoc.
    + intros c cyc Hc Hlt.
      rewrite lookup_app_l in Hc by (by rewrite length_alter).
      by apply (Forall_lookup_1 _ _ _ _ (cleanup_cancels_all _ (winv_stale _ Hw)) Hc).
Qed.

Lemma X14_rerender_keeps_state_and_restarts_on_new_key_witness :
  let w' := step Demo.runtime (Rerender ["foo/bar"]) Demo.two_mounted in
  repos w' = ["foo/bar"] ∧ observable w' = observable Demo.two_mounted.
Proof.
  assert (reachable Demo.runtime Demo.two_mounted) as Hreach.
  { apply (reach_mount Demo.runtime 1700000000000 Demo.two_repos (Demo.store [])).
    vm_compute; reflexivity. }
  destruct (X14_rerender_keeps_state_and_restarts_on_new_key Demo.runtime
              Demo.two_mounted ["foo/bar"] Hreach eq_refl) as (Hrepos & Hobs & _).
  by split.
Defined.





(** X17.  When the first error to arrive has an empty message, the error
    view falls back on the error itself and shows its name. *)
Theorem X17_error_without_message_shows_its_name (rt : Runtime) (now : Z)
    (props : list string) (st : Storage) (w0 : World)
    (nets : list FetchOutcome) (sched : list nat) (now' : Z) (e : JSError) :
  mount rt now props st = Ok w0 →
  first_rejection rt props nets sched = Some e →
  e_message e = "" →
  let w := run rt (arrivals 0 nets sched ++ [Resume 0 now']) w0 in
  error w = VStr (e_name e)
  ∧ render rt w = Ok (ErrorView (VStr (e_name e)) (map badge props)).
Proof.
  intros Hmount Hfirst Hempty w.
  destruct (cycle_fails rt now props st w0 nets sched now' e Hmount Hfirst)
    as (_ & _ & _ & Herror & _ & Hrender).
  fold w in Herror, Hrender.
  assert (error_text e = e_name e) as Htext.
  { unfold error_text, error_toString. rewrite Hempty. simpl.
    by destruct (String.eqb_spec (e_name e) "") as [->|_]. }
  by rewrite Herror, Hrender, Htext.
Qed.

Lemma X17_error_without_message_shows_its_name_witness :
  let nets := [Demo.ok_response (Demo.body "b" "a/b" 1); Throw (TypeError "")] in
  let w := run Demo.runtime (arrivals 0 nets [0; 1] ++ [Resume 0 1700000000500])
               Demo.two_mounted in
  error w = VStr "TypeError".
Proof.
  assert (mount Demo.runtime 1700000000000 Demo.two_repos (Demo.store [])
          = Ok Demo.two_mounted) as Hmount by (vm_compute; reflexivity).
  exact (proj1 (X17_error_without_message_shows_its_name Demo.runtime 1700000000000
                  Demo.two_repos (Demo.store []) Demo.two_mounted
                  [Demo.ok_response (Demo.body "b" "a/b" 1); Throw (TypeError "")]
                  [0; 1] 1700000000500 (TypeError "") Hmount eq_refl eq_refl)).
Defined.
